(** * fs-cache: the Memgodb document store and the Memdis key/value store

    A shallow embedding of the Go package [fscache]: the document store
    of the NoSQL file (the [Memgodb] methods and the [Collection],
    [Insert], [Filter], [Delete] and [Update] objects), the key/value
    store of [memdis.go] and the [Cache] methods of [operations.go].

    Conventions.
    - The package-level slice [MemgodbStorage] and the field
      [md.storage] are threaded through every operation as explicit
      state.
    - A Go function returning [(T, error)] returns an [outcome]; a
      run-time panic is a third outcome.
    - Go gives no order to [range] over a map.  A map that the code
      ranges over (the predicate, the patch) is the list of its pairs in
      the order the loop visits them, and every statement is for every
      such list.  The loops range over the predicate once for each
      record, and Go may take another order each time.  When the
      values of the predicate can all be compared, what [First], [All]
      and [Delete.One] compute does not depend on it
      ([order_of_pairs_irrelevant]); with a slice, a map or a func among
      them it can ([order_of_pairs_uncomparable]), and what [Update.One]
      computes does in either case, through the pair it finds first at
      the record it updates.  A map that is only read and written by key
      is a [gmap]; [Keys] and [Values] list one in the order of
      [map_to_list].
    - [uuid.New()] and [time.Now()] read the environment; their results
      are arguments of the operations that call them. *)

From Stdlib Require Import ZArith Ascii PrimFloat FloatOps.
From stdpp Require Import gmap strings list fin_maps.

(** ** Go values *)

(** The dynamic values an [interface{}] holds in this package.  A
    [uuid.UUID] and a [time.Time] are kept by the text [encoding/json]
    prints for them, which is all the package observes of them. *)
#[warnings="-register-all"]
Inductive value : Type :=
  | VNil                                (* the nil interface *)
  | VBool (b : bool)
  | VInt (n : Z)                        (* int *)
  | VFloat (f : float)                  (* float64 *)
  | VString (s : string)
  | VUUID (text : string)               (* uuid.UUID *)
  | VTime (text : string)               (* time.Time *)
  | VSlice (l : list value)             (* []interface{}, not nil *)
  | VMap (m : gmap string value)        (* map[string]interface{}, not nil *)
  | VNilMap                             (* map[string]interface{}(nil) *)
  | VFunc.                              (* a func value *)

(** What a caller hands to [Collection] and [Insert]: a value as above
    or a struct, given by its type name and its exported fields under
    their JSON keys. *)
Inductive object : Type :=
  | Plain (v : value)
  | Struct (name : string) (fields : gmap string value).

Module reflect.
Inductive Kind : Set :=
  | Bool | Int | Float64 | String | Array | Slice | Map | Struct | Func.

Definition Kind_eqb (a b : Kind) : bool :=
  match a, b with
  | Bool, Bool | Int, Int | Float64, Float64 | String, String
  | Array, Array | Slice, Slice | Map, Map | Struct, Struct
  | Func, Func => true
  | _, _ => false
  end.
End reflect.

(** [reflect.TypeOf(x).Kind()]; [None] when [x] is the nil interface,
    for which [reflect.TypeOf] returns nil. *)
Definition Kind_of (x : object) : option reflect.Kind :=
  match x with
  | Plain VNil => None
  | Plain (VBool _) => Some reflect.Bool
  | Plain (VInt _) => Some reflect.Int
  | Plain (VFloat _) => Some reflect.Float64
  | Plain (VString _) => Some reflect.String
  | Plain (VUUID _) => Some reflect.Array
  | Plain (VTime _) => Some reflect.Struct
  | Plain (VSlice _) => Some reflect.Slice
  | Plain (VMap _) | Plain VNilMap => Some reflect.Map
  | Plain VFunc => Some reflect.Func
  | Struct _ _ => Some reflect.Struct
  end.

(** [reflect.TypeOf(x).Name()] of a struct. *)
Definition Name_of (x : object) : string :=
  match x with
  | Struct name _ => name
  | Plain (VTime _) => "Time"
  | _ => ""
  end.

(** [x == y] on two interface values: equal dynamic types and equal
    contents; comparing two values of one uncomparable type (slice, map,
    func) panics, which is [None].  Two UUIDs are equal when their texts
    are.  Two times are compared by their texts as well, which is [==]
    for times without a monotonic clock reading in one location.  The
    right operand in the loops of the package is a decoded value, never
    a UUID or a time, but for the [updatedAt] that [Update.One] has just
    written. *)
Definition go_eq (x y : value) : option bool :=
  match x, y with
  | VNil, VNil => Some true
  | VBool a, VBool b => Some (Bool.eqb a b)
  | VInt a, VInt b => Some (a =? b)%Z
  | VFloat a, VFloat b => Some (PrimFloat.eqb a b)
  | VString a, VString b => Some (String.eqb a b)
  | VUUID a, VUUID b => Some (String.eqb a b)
  | VTime a, VTime b => Some (String.eqb a b)
  | VSlice _, VSlice _ => None
  | (VMap _ | VNilMap), (VMap _ | VNilMap) => None
  | VFunc, VFunc => None
  | _, _ => Some false
  end.

(** The operand types on which [==] cannot panic. *)
Definition comparable (x : value) : bool :=
  match x with
  | VSlice _ | VMap _ | VNilMap | VFunc => false
  | _ => true
  end.

(** ** encoding/json *)

(** The float64 a JSON decimal integer decodes to: the nearest one. *)
Definition float64_of_int (n : Z) : float :=
  SF2Prim (SpecFloat.binary_normalize prec emax n 0 false).

(** [json.Marshal] succeeds, and [json.Unmarshal] accepts its text: no
    func value, no NaN or infinity.  A Go [int] has 64 bits and its
    decimal text always reads back as a finite float64; for the
    integers of the model beyond that range the test is the one
    [json.Unmarshal] makes on the number it reads. *)
Fixpoint marshalable (v : value) : bool :=
  match v with
  | VFunc => false
  | VFloat f => is_finite f
  | VInt n => is_finite (float64_of_int n)
  | VSlice l => forallb marshalable l
  | VMap m => map_fold (λ _ x ok, marshalable x && ok) true m
  | _ => true
  end.

(** [json.Unmarshal] of the bytes [json.Marshal] gives for [v], into an
    [interface{}]: numbers come back as float64, a UUID and a time as
    the string printed for them, a nil map as nil.  The bytes themselves
    are not modelled; strings are taken to be valid UTF-8, which the
    round trip leaves as they are.  The [VFunc] row is never used:
    [json.Marshal] has failed before. *)
Fixpoint decoded (v : value) : value :=
  match v with
  | VNil => VNil
  | VBool b => VBool b
  | VInt n => VFloat (float64_of_int n)
  | VFloat f => VFloat f
  | VString s => VString s
  | VUUID text => VString text
  | VTime text => VString text
  | VSlice l => VSlice (decoded <$> l)
  | VMap m => VMap (decoded <$> m)
  | VNilMap => VNil
  | VFunc => VNil
  end.

Definition marshalable_object (x : object) : bool :=
  match x with
  | Plain v => marshalable v
  | Struct _ fields => marshalable (VMap fields)
  end.

Definition decoded_object (x : object) : value :=
  match x with
  | Plain v => decoded v
  | Struct _ fields => decoded (VMap fields)
  end.

(** ** Results *)

Inductive error : Set :=
  | errors_New (text : string)     (* errors.New(text) *)
  | json_error.                    (* an error of encoding/json *)

Inductive outcome (A : Type) : Type :=
  | Return (a : A)                 (* returns a and a nil error *)
  | Fail (e : error)               (* returns a non-nil error *)
  | Panic (text : string).         (* panics *)

Arguments Return {A} a.
Arguments Fail {A} e.
Arguments Panic {A} text.

(** The same for a function that also writes a package-level variable
    or a field of its receiver: the state it leaves is part of the
    result.  The state a panic leaves is not modelled. *)
Inductive effect (S A : Type) : Type :=
  | Returns (a : A) (s : S)
  | Fails (e : error) (s : S)
  | Panics (text : string).

Arguments Returns {S A} a s.
Arguments Fails {S A} e s.
Arguments Panics {S A} text.

(** Sequencing: the rest of a function body runs when the call
    returned without error or panic. *)
Definition bind {A B : Type} (x : outcome A) (k : A → outcome B) : outcome B :=
  match x with
  | Return a => k a
  | Fail e => Fail e
  | Panic text => Panic text
  end.

Notation "'let*' x ':=' y 'in' z" := (bind y (λ x, z))
  (at level 10, x name, y at level 100, z at level 200, only parsing).

(** [val == v] inside a function body. *)
Definition compare (val v : value) : outcome bool :=
  match go_eq val v with
  | Some b => Return b
  | None => Panic "runtime error: comparing uncomparable type"
  end.

(** ** strings *)

(** [strings.ToLower] on ASCII text (letters outside ASCII are left as
    they are). *)
Definition lower (a : ascii) : ascii :=
  let n := nat_of_ascii a in
  if (65 <=? n) && (n <=? 90) then ascii_of_nat (n + 32) else a.

Fixpoint ToLower (s : string) : string :=
  match s with
  | EmptyString => EmptyString
  | String a s' => String (lower a) (ToLower s')
  end.

(** [s[len(s)-1]] *)
Fixpoint last_byte (s : string) : option ascii :=
  match s with
  | EmptyString => None
  | String a EmptyString => Some a
  | String _ s' => last_byte s'
  end.

(** ** The document store *)

(** [MemgodbStorage []interface{}]: [None] is the nil slice the package
    starts with, [Some l] a slice of the elements [l]. *)
Definition Storage : Type := option (list value).

Definition elements (st : Storage) : list value := default [] st.

(** [append(st, xs...)] *)
Definition append (st : Storage) (xs : list value) : Storage :=
  match xs with
  | [] => st
  | _ => Some (elements st ++ xs)
  end.

Record Collection : Type := { collectionName : string }.

Record Insert : Type := {
  Insert_obj : object;
  Insert_collection : Collection }.

(** [filter] is [None] for a nil map; [objMaps] is [None] for a nil
    slice.  An element of [objMaps] that is a nil map is kept as the
    empty map: the package only reads it. *)
Record Filter : Type := {
  Filter_objMaps : option (list (gmap string value));
  Filter_filter : option (list (string * value));
  Filter_collection : Collection }.

Record Delete : Type := {
  Delete_objMaps : option (list (gmap string value));
  Delete_filter : option (list (string * value));
  Delete_collection : Collection }.

Record Update : Type := {
  Update_objMaps : option (list (gmap string value));
  Update_filter : option (list (string * value));
  Update_update : list (string * value);
  Update_collection : Collection }.

(** [Memgodb.Collection].  Its first check is
    [reflect.ValueOf(col).IsZero() && col == nil]: for the nil interface
    [reflect.ValueOf] gives the zero Value, on which [IsZero] panics;
    for every other [col] the second conjunct is false. *)
Definition Memgodb_Collection (col : object) : outcome Collection :=
  match Kind_of col with
  | None => Panic "reflect: call of reflect.Value.IsZero on zero Value"
  | Some k =>
      if negb (reflect.Kind_eqb k reflect.Struct)
         && negb (reflect.Kind_eqb k reflect.String)
      then Panic "Collection must either be a [string] or an [object]"
      else
        let colName :=
          if reflect.Kind_eqb k reflect.Struct then ToLower (Name_of col)
          else ToLower (match col with Plain (VString s) => s | _ => "" end) in
        let colName :=
          if (0 <? String.length colName)
             && negb (bool_decide (last_byte colName = Some "s"%char))
          then colName +:+ "s" else colName in
        Return {| collectionName := colName |}
  end.

Definition Collection_Insert (c : Collection) (obj : object) : Insert :=
  {| Insert_obj := obj; Insert_collection := c |}.

(** [Collection.decode]: [Return None] is the nil map that the JSON
    text [null] leaves in [objMap]. *)
Definition Collection_decode (obj : object)
  : outcome (option (gmap string value)) :=
  if marshalable_object obj then
    match decoded_object obj with
    | VMap m => Return (Some m)
    | VNil => Return None
    | _ => Fail json_error
    end
  else Fail json_error.

(** An element of a JSON array decoded into a
    [map[string]interface{}]. *)
Definition as_map (v : value) : option (gmap string value) :=
  match v with
  | VMap m => Some m
  | VNil => Some ∅
  | _ => None
  end.

(** [Collection.decodeMany], on a [[]interface{}]. *)
Definition Collection_decodeMany (arr : Storage)
  : outcome (option (list (gmap string value))) :=
  match arr with
  | None => Return None
  | Some l =>
      if forallb marshalable l then
        match mapM as_map (decoded <$> l) with
        | Some arrObjs => Return (Some arrObjs)
        | None => Fail json_error
        end
      else Fail json_error
  end.

(** [Insert.One]; [id] is what [uuid.New()] returns and [now] what
    [time.Now()] returns. *)
Definition Insert_One (i : Insert) (id now : string) (st : Storage)
  : effect Storage (gmap string value) :=
  match Kind_of (Insert_obj i) with
  | None => Fails (errors_New "One() params cannot be nil") st
  | Some k =>
      if negb (reflect.Kind_eqb k reflect.Struct)
         && negb (reflect.Kind_eqb k reflect.Map)
      then Fails (errors_New
             "insert() param must either be a [map] or a [struct]") st
      else
        match Collection_decode (Insert_obj i) with
        | Fail e => Fails e st
        | Panic text => Panics text
        | Return None => Panics "assignment to entry in nil map"
        | Return (Some objMap) =>
            let objMap :=
              <["colName" :=
                  VString (collectionName (Insert_collection i))]> objMap in
            let objMap := <["id" := VUUID id]> objMap in
            let objMap := <["createdAt" := VTime now]> objMap in
            let objMap := <["updatedAt" := VNil]> objMap in
            Returns objMap (append st [VMap objMap])
        end
  end.

(** *** The test shared by the loops *)

(** [item["colName"] == c.collectionName] *)
Definition colName_is (item : gmap string value) (c : Collection) : bool :=
  match item !! "colName" with
  | Some (VString s) => String.eqb s (collectionName c)
  | _ => false
  end.

(** The two nested conditions that guard the loop bodies of [First],
    [All], [Delete.One] and [Update.One]:
    [if item["colName"] == collectionName {
       if v, ok := item[key]; ok && val == v { ... } }] *)
Definition hit (c : Collection) (item : gmap string value)
    (key : string) (val : value) : outcome bool :=
  if colName_is item c then
    match item !! key with
    | Some v => compare val v
    | None => Return false
    end
  else Return false.

(** The pairs a [range] over [filter] visits; none for a nil map. *)
Definition pairs_of (filter : option (list (string * value)))
  : list (string * value) := default [] filter.

(** *** Filter *)

(** [Collection.Filter]; [None] is the nil pointer it returns when
    [decodeMany] fails. *)
Definition Collection_Filter (c : Collection)
    (filter : option (list (string * value))) (st : Storage) : option Filter :=
  match filter with
  | None =>
      Some {| Filter_objMaps := None; Filter_filter := None;
              Filter_collection := c |}
  | Some _ =>
      match Collection_decodeMany st with
      | Return objMaps =>
          Some {| Filter_objMaps := objMaps; Filter_filter := filter;
                  Filter_collection := c |}
      | _ => None
      end
  end.

Record First_vars : Type := {
  First_notFound : bool;
  First_foundObj : gmap string value;
  First_counter : nat }.

(** The loop over the predicate in [First]; it ends at the first hit
    ([break]). *)
Fixpoint First_inner (c : Collection) (item : gmap string value)
    (filter : list (string * value)) (s : First_vars) : outcome First_vars :=
  match filter with
  | [] => Return s
  | (key, val) :: rest =>
      let* b := hit c item key val in
      if b then
        Return (if First_counter s <? 1
                then {| First_notFound := false; First_foundObj := item;
                        First_counter := S (First_counter s) |}
                else s)
      else First_inner c item rest s
  end.

Fixpoint First_outer (c : Collection) (objMaps : list (gmap string value))
    (filter : list (string * value)) (s : First_vars) : outcome First_vars :=
  match objMaps with
  | [] => Return s
  | item :: rest =>
      let* s' := First_inner c item filter s in First_outer c rest filter s'
  end.

(** [Filter.First] *)
Definition Filter_First (f : Filter) : outcome (gmap string value) :=
  match Filter_objMaps f with
  | None => Fail (errors_New "filter params cannot be nil")
  | Some objMaps =>
      let* s := First_outer (Filter_collection f) objMaps
            (pairs_of (Filter_filter f))
            {| First_notFound := true; First_foundObj := ∅;
               First_counter := 0 |} in
      if First_notFound s then Fail (errors_New "record not found")
      else Return (First_foundObj s)
  end.

Record All_vars : Type := {
  All_notFound : bool;
  All_foundObj : list (gmap string value) }.

(** The loop over the predicate in [All]; it has no [break], so every
    pair that hits appends the item once more. *)
Fixpoint All_inner (c : Collection) (item : gmap string value)
    (filter : list (string * value)) (s : All_vars) : outcome All_vars :=
  match filter with
  | [] => Return s
  | (key, val) :: rest =>
      let* b := hit c item key val in
      All_inner c item rest
        (if b then {| All_notFound := false;
                      All_foundObj := All_foundObj s ++ [item] |}
         else s)
  end.

Fixpoint All_outer (c : Collection) (objMaps : list (gmap string value))
    (filter : list (string * value)) (s : All_vars) : outcome All_vars :=
  match objMaps with
  | [] => Return s
  | item :: rest =>
      let* s' := All_inner c item filter s in All_outer c rest filter s'
  end.

(** [Filter.All].  With nil [objMaps] it marshals [MemgodbStorage] and
    unmarshals it into a [[]map[string]interface{}], which is what
    [decodeMany] does.  A nil slice is returned as the empty list. *)
Definition Filter_All (f : Filter) (st : Storage)
  : outcome (list (gmap string value)) :=
  match Filter_objMaps f with
  | None =>
      let* objMaps := Collection_decodeMany st in Return (default [] objMaps)
  | Some objMaps =>
      let* s := All_outer (Filter_collection f) objMaps
            (pairs_of (Filter_filter f))
            {| All_notFound := true; All_foundObj := [] |} in
      if All_notFound s then Fail (errors_New "record not found")
      else Return (All_foundObj s)
  end.

(** The chained calls [c.Filter(filter).First()] and
    [c.Filter(filter).All()]. *)
Definition find_First (c : Collection)
    (filter : option (list (string * value))) (st : Storage)
  : outcome (gmap string value) :=
  match Collection_Filter c filter st with
  | None => Panic "invalid memory address or nil pointer dereference"
  | Some f => Filter_First f
  end.

Definition find_All (c : Collection)
    (filter : option (list (string * value))) (st : Storage)
  : outcome (list (gmap string value)) :=
  match Collection_Filter c filter st with
  | None => Panic "invalid memory address or nil pointer dereference"
  | Some f => Filter_All f st
  end.

(** *** Delete *)

(** A slice of [MemgodbStorage] during [Delete.One]: the backing array
    and the length.  The array is the store at the call; the slots past
    its length, which the chained call [c.Delete(filter).One()] never
    reaches, are not modelled, and the capacity is the array's
    length. *)
Record slice : Type := { array : list value; len : nat }.

Definition slice_of (st : Storage) : slice :=
  {| array := elements st; len := length (elements st) |}.

(** The slice as a store; a slice of the nil slice is nil. *)
Definition Storage_of (st : Storage) (s : slice) : Storage :=
  match st with
  | None => None
  | Some _ => Some (take (len s) (array s))
  end.

(** [s[:index]]: it may reach past the length, up to the capacity. *)
Definition slice_to (s : slice) (index : nat) : outcome slice :=
  if index <=? length (array s)
  then Return {| array := array s; len := index |}
  else Panic "runtime error: slice bounds out of range".

(** [append(s[:index], s[index+1:]...)] for [index + 1 <= len(s)]: the
    elements after [index] move down one slot in the same array, whose
    slot [len(s) - 1] keeps what it held. *)
Definition remove_at (s : slice) (index : nat) : slice :=
  {| array := take index (array s)
              ++ drop (S index) (take (len s) (array s))
              ++ drop (len s - 1) (array s);
     len := len s - 1 |}.

(** [Collection.Delete] *)
Definition Collection_Delete (c : Collection)
    (filter : option (list (string * value))) (st : Storage) : option Delete :=
  match filter with
  | None =>
      Some {| Delete_objMaps := None; Delete_filter := None;
              Delete_collection := c |}
  | Some _ =>
      match Collection_decodeMany st with
      | Return objMaps =>
          Some {| Delete_objMaps := objMaps; Delete_filter := filter;
                  Delete_collection := c |}
      | _ => None
      end
  end.

Record One_vars : Type := {
  One_notFound : bool;
  One_MemgodbStorage : slice }.

(** The loop over the predicate in [Delete.One].  Both branches end in
    [break], which leaves this loop only; [index--] changes a variable
    that [range] assigns anew at the next item. *)
Fixpoint Delete_One_inner (c : Collection) (index : nat)
    (item : gmap string value) (filter : list (string * value))
    (s : One_vars) : outcome One_vars :=
  match filter with
  | [] => Return s
  | (key, val) :: rest =>
      let* b := hit c item key val in
      if b then
        if (Z.of_nat index <? Z.of_nat (len (One_MemgodbStorage s)) - 1)%Z
        then Return {| One_notFound := false;
                       One_MemgodbStorage :=
                         remove_at (One_MemgodbStorage s) index |}
        else
          let* s' := slice_to (One_MemgodbStorage s) index in
          Return {| One_notFound := false; One_MemgodbStorage := s' |}
      else Delete_One_inner c index item rest s
  end.

Fixpoint Delete_One_outer (c : Collection) (index : nat)
    (objMaps : list (gmap string value)) (filter : list (string * value))
    (s : One_vars) : outcome One_vars :=
  match objMaps with
  | [] => Return s
  | item :: rest =>
      let* s' := Delete_One_inner c index item filter s in
      Delete_One_outer c (S index) rest filter s'
  end.

(** [Delete.One] *)
Definition Delete_One (d : Delete) (st : Storage) : effect Storage unit :=
  match Delete_objMaps d with
  | None => Fails (errors_New "filter params cannot be nil") st
  | Some objMaps =>
      match Delete_One_outer (Delete_collection d) 0 objMaps
              (pairs_of (Delete_filter d))
              {| One_notFound := true; One_MemgodbStorage := slice_of st |}
      with
      | Return s =>
          if One_notFound s
          then Fails (errors_New "record not found")
                 (Storage_of st (One_MemgodbStorage s))
          else Returns tt (Storage_of st (One_MemgodbStorage s))
      | Fail e => Fails e st
      | Panic text => Panics text
      end
  end.

(** The chained call [c.Delete(filter).One()]. *)
Definition delete_One (c : Collection)
    (filter : option (list (string * value))) (st : Storage)
  : effect Storage unit :=
  match Collection_Delete c filter st with
  | None => Panics "invalid memory address or nil pointer dereference"
  | Some d => Delete_One d st
  end.

(** *** Update *)

(** [Collection.Update] *)
Definition Collection_Update (c : Collection)
    (filter : option (list (string * value))) (obj : list (string * value))
    (st : Storage) : option Update :=
  match filter with
  | None =>
      Some {| Update_objMaps := None; Update_filter := None;
              Update_update := obj; Update_collection := c |}
  | Some _ =>
      match Collection_decodeMany st with
      | Return objMaps =>
          Some {| Update_objMaps := objMaps; Update_filter := filter;
                  Update_update := obj; Update_collection := c |}
      | _ => None
      end
  end.

(** The variables of [Update.One]; [Upd_ticks] counts the calls of
    [time.Now()] so far. *)
Record Upd_vars : Type := {
  Upd_notFound : bool;
  Upd_counter : nat;
  Upd_ticks : nat;
  Upd_MemgodbStorage : list value }.

(** The body run at a hit while [counter < 1]: the first value of the
    patch is stored under [key], the key of the predicate pair that hit,
    and [updatedAt] is set. *)
Definition apply_update (update : list (string * value)) (now : nat → string)
    (key : string) (item : gmap string value) (s : Upd_vars)
  : gmap string value * Upd_vars :=
  let '(item, counter) :=
    match update with
    | (_, updateValue) :: _ => (<[key := updateValue]> item, S (Upd_counter s))
    | [] => (item, Upd_counter s)
    end in
  (<["updatedAt" := VTime (now (Upd_ticks s))]> item,
   {| Upd_notFound := Upd_notFound s; Upd_counter := counter;
      Upd_ticks := S (Upd_ticks s);
      Upd_MemgodbStorage := Upd_MemgodbStorage s |}).

(** The loop over the predicate in [Update.One]; [item] is a map, so
    what one round writes to it the next round reads. *)
Fixpoint Update_One_inner (c : Collection) (update : list (string * value))
    (now : nat → string) (index : nat) (filter : list (string * value))
    (item : gmap string value) (s : Upd_vars) : outcome Upd_vars :=
  match filter with
  | [] => Return s
  | (key, val) :: rest =>
      let* b := hit c item key val in
      if b then
        let s := {| Upd_notFound := false; Upd_counter := Upd_counter s;
                    Upd_ticks := Upd_ticks s;
                    Upd_MemgodbStorage := Upd_MemgodbStorage s |} in
        let '(item, s) :=
          if Upd_counter s <? 1 then apply_update update now key item s
          else (item, s) in
        if index <? length (Upd_MemgodbStorage s) then
          Update_One_inner c update now index rest item
            {| Upd_notFound := Upd_notFound s; Upd_counter := Upd_counter s;
               Upd_ticks := Upd_ticks s;
               Upd_MemgodbStorage :=
                 <[index := VMap item]> (Upd_MemgodbStorage s) |}
        else Panic "runtime error: index out of range"
      else Update_One_inner c update now index rest item s
  end.

Fixpoint Update_One_outer (c : Collection) (update : list (string * value))
    (now : nat → string) (index : nat) (objMaps : list (gmap string value))
    (filter : list (string * value)) (s : Upd_vars) : outcome Upd_vars :=
  match objMaps with
  | [] => Return s
  | item :: rest =>
      let* s' := Update_One_inner c update now index filter item s in
      Update_One_outer c update now (S index) rest filter s'
  end.

(** [Update.One]; [now n] is what the call number [n] of [time.Now()]
    returns. *)
Definition Update_One (u : Update) (now : nat → string) (st : Storage)
  : effect Storage unit :=
  match Update_objMaps u with
  | None => Fails (errors_New "filter params cannot be nil") st
  | Some objMaps =>
      match Update_One_outer (Update_collection u) (Update_update u) now 0
              objMaps (pairs_of (Update_filter u))
              {| Upd_notFound := true; Upd_counter := 0; Upd_ticks := 0;
                 Upd_MemgodbStorage := elements st |}
      with
      | Return s =>
          let st' := match st with
                     | None => None
                     | Some _ => Some (Upd_MemgodbStorage s)
                     end in
          if Upd_notFound s
          then Fails (errors_New "record not found") st'
          else Returns tt st'
      | Fail e => Fails e st
      | Panic text => Panics text
      end
  end.

(** The chained call [c.Update(filter, obj).One()]. *)
Definition update_One (c : Collection)
    (filter : option (list (string * value))) (obj : list (string * value))
    (now : nat → string) (st : Storage) : effect Storage unit :=
  match Collection_Update c filter obj st with
  | None => Panics "invalid memory address or nil pointer dereference"
  | Some u => Update_One u now st
  end.

(** *** Persistence *)




(** *** Delete.All *)

(** The loop over the predicate in [Delete.All]: the loop of
    [Delete.One] without the [break]s.  After a deletion the loop goes
    on to the next pair with the [index] that [index--] has left, which
    may be negative; [range] assigns it anew at the next item only. *)
Fixpoint Delete_All_inner (c : Collection) (index : Z)
    (item : gmap string value) (filter : list (string * value))
    (s : One_vars) : outcome One_vars :=
  match filter with
  | [] => Return s
  | (key, val) :: rest =>
      let* b := hit c item key val in
      if b then
        if (index <? 0)%Z
        then Panic "runtime error: slice bounds out of range"
        else if (index <? Z.of_nat (len (One_MemgodbStorage s)) - 1)%Z
        then Delete_All_inner c (index - 1)%Z item rest
               {| One_notFound := false;
                  One_MemgodbStorage :=
                    remove_at (One_MemgodbStorage s) (Z.to_nat index) |}
        else
          let* s' := slice_to (One_MemgodbStorage s) (Z.to_nat index) in
          Delete_All_inner c index item rest
            {| One_notFound := false; One_MemgodbStorage := s' |}
      else Delete_All_inner c index item rest s
  end.

Fixpoint Delete_All_outer (c : Collection) (index : nat)
    (objMaps : list (gmap string value)) (filter : list (string * value))
    (s : One_vars) : outcome One_vars :=
  match objMaps with
  | [] => Return s
  | item :: rest =>
      let* s' := Delete_All_inner c (Z.of_nat index) item filter s in
      Delete_All_outer c (S index) rest filter s'
  end.

(** [Delete.All]; with nil [objMaps] it sets [MemgodbStorage] to
    [MemgodbStorage[:0]]. *)
Definition Delete_All (d : Delete) (st : Storage) : effect Storage unit :=
  match Delete_objMaps d with
  | None =>
      Returns tt (Storage_of st {| array := elements st; len := 0 |})
  | Some objMaps =>
      match Delete_All_outer (Delete_collection d) 0 objMaps
              (pairs_of (Delete_filter d))
              {| One_notFound := true; One_MemgodbStorage := slice_of st |}
      with
      | Return s =>
          if One_notFound s
          then Fails (errors_New "record not found")
                 (Storage_of st (One_MemgodbStorage s))
          else Returns tt (Storage_of st (One_MemgodbStorage s))
      | Fail e => Fails e st
      | Panic text => Panics text
      end
  end.

(** The chained call [c.Delete(filter).All()]. *)
Definition delete_All (c : Collection)
    (filter : option (list (string * value))) (st : Storage)
  : effect Storage unit :=
  match Collection_Delete c filter st with
  | None => Panics "invalid memory address or nil pointer dereference"
  | Some d => Delete_All d st
  end.

(** *** Insert.Many and Insert.FromJsonFile *)

(** An element of a JSON array decoded into a
    [map[string]interface{}], with [None] for the nil map that the text
    [null] gives; [as_map] reads that one as the empty map. *)
Definition as_nilable_map (v : value) : option (option (gmap string value)) :=
  match v with
  | VMap m => Some (Some m)
  | VNil => Some None
  | _ => None
  end.

(** A [map[string]interface{}] held in an interface. *)
Definition of_nilable_map (obj : option (gmap string value)) : value :=
  match obj with
  | Some m => VMap m
  | None => VNilMap
  end.

(** [Collection.decodeMany] on any [arr], with the nil maps kept
    apart: [json.Marshal], then [json.Unmarshal] into a
    [[]map[string]interface{}]; the text [null] leaves the slice nil. *)
Definition decodeMany_of (arr : object)
  : outcome (option (list (option (gmap string value)))) :=
  if marshalable_object arr then
    match decoded_object arr with
    | VSlice l =>
        match mapM as_nilable_map l with
        | Some arrObjs => Return (Some arrObjs)
        | None => Fail json_error
        end
    | VNil => Return None
    | _ => Fail json_error
    end
  else Fail json_error.

(** The loop of [Insert.Many]: [Insert(obj).One()] for each decoded
    element in turn, stopping at the first error; [ids k] and [nows k]
    are what [uuid.New()] and [time.Now()] return in round [k]. *)
Fixpoint Many_loop (c : Collection) (ids nows : nat → string) (k : nat)
    (arrObjs : list (option (gmap string value)))
    (savedData : list (gmap string value)) (st : Storage)
  : effect Storage (list (gmap string value)) :=
  match arrObjs with
  | [] => Returns savedData st
  | obj :: rest =>
      match Insert_One (Collection_Insert c (Plain (of_nilable_map obj)))
              (ids k) (nows k) st with
      | Returns saved st' =>
          Many_loop c ids nows (S k) rest (savedData ++ [saved]) st'
      | Fails e st' => Fails e st'
      | Panics text => Panics text
      end
  end.

(** [Insert.Many]; [reflect.TypeOf(arr)] is nil for the nil interface and
    its [Kind] call panics. *)
Definition Insert_Many (i : Insert) (arr : object) (ids nows : nat → string)
    (st : Storage) : effect Storage (list (gmap string value)) :=
  match Kind_of (Insert_obj i) with
  | Some _ =>
      Fails (errors_New "Many() params must be nil to insert Many") st
  | None =>
      match Kind_of arr with
      | None => Panics "invalid memory address or nil pointer dereference"
      | Some k =>
          if negb (reflect.Kind_eqb k reflect.Slice)
          then Fails (errors_New "function param must be a [slice]") st
          else
            match decodeMany_of arr with
            | Return arrObjs =>
                Many_loop (Insert_collection i) ids nows 0
                  (default [] arrObjs) [] st
            | Fail e => Fails e st
            | Panic text => Panics text
            end
      end
  end.

(** The file [Insert.FromJsonFile] is pointed at: one that cannot be
    opened or read, with the error of [os.Open] or [io.ReadAll]; one
    whose bytes are not JSON; one holding a JSON text, given by the value
    [json.Unmarshal] decodes it to. *)
Inductive JsonFile : Type :=
  | Unreadable (err : error)
  | NotJSON
  | Text (obj : value).

(** [Insert.FromJsonFile].  The errors of [decodeMany], [decode],
    [Many] and [One] end it with [return nil]. *)
Definition Insert_FromJsonFile (i : Insert) (file : JsonFile)
    (ids nows : nat → string) (st : Storage) : effect Storage unit :=
  match Kind_of (Insert_obj i) with
  | Some _ =>
      Fails (errors_New "FromFile() params must be nil to insert from file")
        st
  | None =>
      match file with
      | Unreadable err => Fails err st
      | NotJSON => Fails (errors_New "invalid json file") st
      | Text obj =>
          match Kind_of (Plain obj) with
          | None => Panics "invalid memory address or nil pointer dereference"
          | Some k =>
              if reflect.Kind_eqb k reflect.Slice then
                match decodeMany_of (Plain obj) with
                | Return objMap =>
                    match Insert_Many
                            (Collection_Insert (Insert_collection i)
                               (Plain VNil))
                            (Plain (VSlice (of_nilable_map
                                              <$> default [] objMap)))
                            ids nows st with
                    | Returns _ st' => Returns tt st'
                    | Fails _ st' => Returns tt st'
                    | Panics text => Panics text
                    end
                | Fail _ => Returns tt st
                | Panic text => Panics text
                end
              else if reflect.Kind_eqb k reflect.Map then
                match Collection_decode (Plain obj) with
                | Return objMap =>
                    match Insert_One
                            (Collection_Insert (Insert_collection i)
                               (Plain (of_nilable_map objMap)))
                            (ids 0) (nows 0) st with
                    | Returns _ st' => Returns tt st'
                    | Fails _ st' => Returns tt st'
                    | Panics text => Panics text
                    end
                | Fail _ => Returns tt st
                | Panic text => Panics text
                end
              else
                Fails (errors_New
                  "file must contain either an array of [objects ::: slice] or [object ::: map]")
                  st
          end
      end
  end.

(** ** Slices that share their array *)

(** [append(s[:index], s[index+1:]...)] on the array [arr] of a slice of
    length [len], for [index + 1 <= len]: the elements after [index]
    move down one slot, the slot [len - 1] and the slots after it keep
    what they held. *)
Definition remove_in_place {A : Type} (arr : list A) (len index : nat)
  : list A :=
  take index arr ++ drop (S index) (take len arr) ++ drop (len - 1) arr.

(** ** Memdis: the key/value store of memdis.go *)

Module Memdis.

(** [MemdisData]; a [time.Time] is here an instant in nanoseconds, and
    [Add] the sum (the saturation of [time.Time.Add] at the ends of
    its range is not modelled). *)
Record MemdisData : Type := { Value : value; Duration : Z }.

(** [md.storage []map[string]MemdisData] *)
Definition Storage : Type := list (gmap string MemdisData).

Definition errKeyNotFound : error := errors_New "key not found".
Definition errKeyExists : error := errors_New "key already exist".

(** The first loop of [Set]: does some map of the storage hold
    [key]? *)
Fixpoint holds (storage : Storage) (key : string) : bool :=
  match storage with
  | [] => false
  | cache :: rest =>
      match cache !! key with
      | Some _ => true
      | None => holds rest key
      end
  end.

(** The second loop of [Set]: the first of the variadic durations,
    the zero duration when there is none. *)
Definition ttl_of (duration : list Z) : Z :=
  match duration with
  | v :: _ => v
  | [] => 0%Z
  end.

(** [Memdis.Set]; [now] is what [time.Now()] returns. *)
Definition Set_ (key : string) (value : value) (duration : list Z)
    (now : Z) (storage : Storage) : effect Storage unit :=
  if holds storage key then Fails errKeyExists storage
  else
    let ttl := ttl_of duration in
    let fs : gmap string MemdisData :=
      <[key := {| Value := value; Duration := (now + ttl)%Z |}]> ∅ in
    Returns tt (storage ++ [fs]).

(** [Memdis.KeyValuePairs] *)
Definition KeyValuePairs (storage : Storage) : list (gmap string value) :=
  (λ v : gmap string MemdisData, Value <$> v) <$> storage.

(** [Memdis.SetMany] *)
Definition SetMany (data : list (gmap string MemdisData))
    (storage : Storage) : effect Storage (list (gmap string value)) :=
  let storage := storage ++ data in
  Returns (KeyValuePairs storage) storage.

(** [Memdis.Get] *)
Fixpoint Get (key : string) (storage : Storage) : outcome value :=
  match storage with
  | [] => Fail errKeyNotFound
  | cache :: rest =>
      match cache !! key with
      | Some val => Return (Value val)
      | None => Get key rest
      end
  end.

(** The loop of [Del]: the first map that holds [key] is taken out of
    the storage, and [Del] returns at once. *)
Fixpoint Del_loop (key : string) (index : nat) (rest storage : Storage)
  : effect Storage unit :=
  match rest with
  | [] => Fails errKeyNotFound storage
  | cache :: rest' =>
      match cache !! key with
      | Some _ => Returns tt (take index storage ++ drop (S index) storage)
      | None => Del_loop key (S index) rest' storage
      end
  end.

(** [Memdis.Del] *)
Definition Del (key : string) (storage : Storage) : effect Storage unit :=
  Del_loop key 0 storage storage.

(** [Memdis.Clear] *)
Definition Clear (storage : Storage) : effect Storage unit :=
  Returns tt (take 0 storage).

(** [Memdis.Size] *)
Definition Size (storage : Storage) : nat := length storage.

(** The first loop of [OverWrite] and of [OverWriteWithKey].  [range]
    has read the slice once: it visits the indices below the length at
    the start, [remaining] of them being left, and reads each element
    from the array, which the deletions of earlier rounds have shifted.
    The loop has no [break].  [arr] is the array, as long as the storage
    at the call, and [len] the length of [md.storage] now. *)
Fixpoint OverWrite_loop (key : string) (remaining index : nat)
    (isFound : bool) (arr : Storage) (len : nat)
  : outcome (bool * Storage * nat) :=
  match remaining with
  | 0 => Return (isFound, arr, len)
  | S remaining' =>
      match arr !! index with
      | None => Panic "runtime error: index out of range"
      | Some cache =>
          match cache !! key with
          | Some _ =>
              if S index <=? len
              then OverWrite_loop key remaining' (S index) true
                     (remove_in_place arr len index) (len - 1)
              else Panic "runtime error: slice bounds out of range"
          | None => OverWrite_loop key remaining' (S index) isFound arr len
          end
      end
  end.

(** [Memdis.OverWriteWithKey] *)
Definition OverWriteWithKey (prevkey newKey : string) (value : value)
    (duration : list Z) (now : Z) (storage : Storage) : effect Storage unit :=
  match OverWrite_loop prevkey (length storage) 0 false storage
          (length storage) with
  | Return (isFound, arr, len) =>
      if negb isFound then Fails errKeyNotFound (take len arr)
      else
        let ttl := ttl_of duration in
        let fs : gmap string MemdisData :=
          <[newKey := {| Value := value; Duration := (now + ttl)%Z |}]> ∅ in
        Returns tt (take len arr ++ [fs])
  | Fail e => Fails e storage
  | Panic text => Panics text
  end.

(** [Memdis.OverWrite]: the same body with one key. *)
Definition OverWrite (key : string) (value : value) (duration : list Z)
    (now : Z) (storage : Storage) : effect Storage unit :=
  OverWriteWithKey key key value duration now storage.

(** [Memdis.Keys] and [Memdis.Values].  Go visits the keys of one map in
    an order of its own; here it is the order of [map_to_list]. *)
Definition Keys (storage : Storage) : list string :=
  storage ≫= λ cache : gmap string MemdisData, (map_to_list cache).*1.

Definition Values (storage : Storage) : list value :=
  storage ≫= λ cache : gmap string MemdisData,
    Value <$> (map_to_list cache).*2.

(** [reflect.TypeOf(v).String()]; [None] for the nil interface, whose
    type is nil.  A func value is taken to be a [func()]. *)
Definition type_name (v : value) : option string :=
  match v with
  | VNil => None
  | VBool _ => Some "bool"
  | VInt _ => Some "int"
  | VFloat _ => Some "float64"
  | VString _ => Some "string"
  | VUUID _ => Some "uuid.UUID"
  | VTime _ => Some "time.Time"
  | VSlice _ => Some "[]interface {}"
  | VMap _ | VNilMap => Some "map[string]interface {}"
  | VFunc => Some "func()"
  end.

(** [Memdis.TypeOf] *)
Fixpoint TypeOf (key : string) (storage : Storage) : outcome string :=
  match storage with
  | [] => Fail errKeyNotFound
  | cache :: rest =>
      match cache !! key with
      | Some value =>
          match type_name (Value value) with
          | Some name => Return name
          | None => Panic "invalid memory address or nil pointer dereference"
          end
      | None => TypeOf key rest
      end
  end.

(** The loop over [keys] in [GetMany], for one map of the storage:
    [data] is the map of that round and [n] the number of times it has
    been appended to the result. *)
Fixpoint GetMany_inner (cache : gmap string MemdisData) (keys : list string)
    (data : gmap string value) (n : nat) : gmap string value * nat :=
  match keys with
  | [] => (data, n)
  | key :: rest =>
      match cache !! key with
      | Some val => GetMany_inner cache rest (<[key := Value val]> data) (S n)
      | None => GetMany_inner cache rest data n
      end
  end.

(** [Memdis.GetMany].  Every [append] of one round stores the same map
    [data], which the rest of the round still writes to: the result
    holds that map as the round leaves it, once for each key found. *)
Definition GetMany (keys : list string) (storage : Storage)
  : list (gmap string value) :=
  storage ≫= λ cache : gmap string MemdisData,
    let '(data, n) := GetMany_inner cache keys ∅ 0 in replicate n data.

End Memdis.

(** ** Cache: operations.go *)

Module Cache.

(** The field [Fscache] of a [Cache], a slice of maps: its array and its
    length ([cap] is the length of the array).  The struct is declared
    outside these files; the methods use this field only. *)
Record Cache : Type := { array : list (gmap string value); len : nat }.

(** The elements of [ch.Fscache]. *)
Definition Fscache (ch : Cache) : list (gmap string value) :=
  take (len ch) (array ch).

Definition errKeyNotFound : error := errors_New "key was not found".

(** [Cache.Set].  The receiver is a copy of the caller's [Cache]: the
    method appends to the copy's slice and returns.  The result is the
    [Cache] of the caller after the call: its slice has the length it
    had, and its array has the new map in the slot after that length
    when the capacity left room for it there. *)
Definition Set_ (key : string) (value : value) (ch : Cache)
  : effect Cache unit :=
  let fs := <[key := value]> (∅ : gmap string _) in
  Returns tt
    {| array := if len ch <? length (array ch)
                then <[len ch := fs]> (array ch) else array ch;
       len := len ch |}.

(** [Cache.Get]; on a missing key it returns [""] and the error. *)
Fixpoint Get_loop (key : string) (Fscache : list (gmap string value))
  : outcome value :=
  match Fscache with
  | [] => Fail errKeyNotFound
  | cache :: rest =>
      match cache !! key with
      | Some val => Return val
      | None => Get_loop key rest
      end
  end.

Definition Get (key : string) (ch : Cache) : outcome value :=
  Get_loop key (Fscache ch).

(** The loop of [Cache.Del] over the elements of the slice: at the
    first map holding [key] the elements after it are moved down in the
    array, which the caller shares; the shorter slice is stored in the
    copy only. *)
Fixpoint Del_loop (key : string) (index : nat)
    (rest : list (gmap string value)) (ch : Cache) : effect Cache unit :=
  match rest with
  | [] => Fails errKeyNotFound ch
  | cache :: rest' =>
      match cache !! key with
      | Some _ =>
          Returns tt {| array := remove_in_place (array ch) (len ch) index;
                        len := len ch |}
      | None => Del_loop key (S index) rest' ch
      end
  end.

(** [Cache.Del]; the result is the [Cache] of the caller after the
    call. *)
Definition Del (key : string) (ch : Cache) : effect Cache unit :=
  Del_loop key 0 (Fscache ch) ch.

End Cache.

(** ** The matching rule *)

(** The record has the field [key] with a value equal to [val]. *)
Definition has_field (item : gmap string value) (key : string) (val : value)
  : Prop :=
  ∃ v, item !! key = Some v ∧ go_eq val v = Some true.

(** The record is of the collection of the handle. *)
Definition in_collection (item : gmap string value) (c : Collection) : Prop :=
  item !! "colName" = Some (VString (collectionName c)).


(** The rule with some pair in place of every pair. *)
Definition matches_some (c : Collection) (p : list (string * value))
    (item : gmap string value) : Prop :=
  in_collection item c ∧ ∃ key val, (key, val) ∈ p ∧ has_field item key val.


(** No value of the predicate is a slice, a map or a func, so that no
    comparison of the loops panics. *)
Definition comparable_predicate (p : list (string * value)) : Prop :=
  Forall (λ kv, comparable kv.2 = true) p.

(** The value of [hit] when the comparison does not panic. *)
Definition hitb (c : Collection) (item : gmap string value)
    (key : string) (val : value) : bool :=
  colName_is item c &&
  match item !! key with
  | Some v => bool_decide (go_eq val v = Some true)
  | None => false
  end.

(** Some pair of the predicate hits. *)
Definition matchb (c : Collection) (p : list (string * value))
    (item : gmap string value) : bool :=
  existsb (λ kv, hitb c item kv.1 kv.2) p.

(** The number of pairs of the predicate that hit. *)
Fixpoint hit_count (c : Collection) (p : list (string * value))
    (item : gmap string value) : nat :=
  match p with
  | [] => 0
  | (key, val) :: rest =>
      (if hitb c item key val then 1 else 0) + hit_count c rest item
  end.

(** What the loops of [All] collect: every record once for each pair
    that hits it. *)
Definition found_items (c : Collection) (p : list (string * value))
    (objMaps : list (gmap string value)) : list (gmap string value) :=
  objMaps ≫= λ item, replicate (hit_count c p item) item.

(** The two branches of [Delete.One] at a hit. *)
Definition del_at (s : slice) (index : nat) : slice :=
  if (Z.of_nat index <? Z.of_nat (len s) - 1)%Z then remove_at s index
  else {| array := array s; len := index |}.

(** The slice [Delete.One] leaves: [del_at] at the index of every
    record of the snapshot that some pair hits. *)
Fixpoint del_loop (c : Collection) (p : list (string * value)) (index : nat)
    (objMaps : list (gmap string value)) (s : slice) : slice :=
  match objMaps with
  | [] => s
  | item :: rest =>
      del_loop c p (S index) rest
        (if matchb c p item then del_at s index else s)
  end.

(** The names of the four fields [Insert.One] sets. *)
Definition system_field (key : string) : Prop :=
  key = "colName" ∨ key = "id" ∨ key = "createdAt" ∨ key = "updatedAt".

(** A value as [json.Unmarshal] yields it: it can be encoded and decodes
    to itself. *)
Definition is_json (v : value) : Prop :=
  marshalable v = true ∧ decoded v = v.

(** What [Update.One] does to the records after the one it has
    updated: each record that some pair hits is replaced by its decoded
    copy ([MemgodbStorage[index] = item]), the others stay. *)
Definition written_back (c : Collection) (p : list (string * value))
    (objMaps : list (gmap string value)) (tail : list value) : list value :=
  zip_with (λ r v, if matchb c p r then VMap r else v) objMaps tail.

(** The size of a value, to reason by induction through the lists and
    maps nested in it. *)
Fixpoint value_size (v : value) : nat :=
  match v with
  | VSlice l => S (foldr (λ x n, value_size x + n) 0 l)
  | VMap m => S (map_fold (λ _ x n, value_size x + n) 0 m)
  | _ => 1
  end.

(** The array keeps its length and the length stays within it. *)
Definition slice_ok (n : nat) (s : slice) : Prop :=
  length (array s) = n ∧ len s ≤ n.

(** The record [Insert.One] stores for the decoded fields [fields]. *)
Definition record_of (c : Collection) (id now : string)
    (fields : gmap string value) : gmap string value :=
  <["updatedAt" := VNil]>
    (<["createdAt" := VTime now]>
       (<["id" := VUUID id]>
          (<["colName" := VString (collectionName c)]> fields))).

(** What [Insert.Many] returns and stores for the field maps [ms], the
    first of them inserted in round [k]. *)
Definition records_of (c : Collection) (ids nows : nat → string) (k : nat)
    (ms : list (gmap string value)) : list (gmap string value) :=
  imap (λ j m, record_of c (ids (k + j)) (nows (k + j)) (decoded <$> m)) ms.

(** A result of [Many] or [One] as [Insert.FromJsonFile] passes it on:
    the error is dropped. *)
Definition swallowed {A : Type} (r : effect Storage A)
  : effect Storage unit :=
  match r with
  | Returns _ st => Returns tt st
  | Fails _ st => Returns tt st
  | Panics text => Panics text
  end.

(** No key is held by two maps of the Memdis storage, nor twice in the
    list of keys of one map. *)
Definition unique_keys (storage : Memdis.Storage) : Prop :=
  NoDup (Memdis.Keys storage).

(** ** Sample data *)

Definition users : Collection := {| collectionName := "users" |}.

(** The fields [{"name": name, "age": age}] as [decode] returns them. *)
Definition person (name : string) (age : Z) : gmap string value :=
  <["name" := VString name]> (<["age" := VFloat (float64_of_int age)]> ∅).

(** The record [Insert.One] stores for [fields] in [users]. *)
Definition stored (id now : string) (fields : gmap string value)
  : gmap string value :=
  <["updatedAt" := VNil]>
    (<["createdAt" := VTime now]>
       (<["id" := VUUID id]>
          (<["colName" := VString "users"]> fields))).

Definition john : gmap string value := stored "id-1" "t1" (person "John" 35).
Definition jane : gmap string value := stored "id-2" "t2" (person "Jane" 35).
Definition xavi : gmap string value := stored "id-3" "t3" (person "Xavi" 20).
Definition yoko : gmap string value := stored "id-4" "t4" (person "Yoko" 21).

(** The map [{"name": name, "age": age}] with an [int] age, as a caller
    writes it. *)
Definition person_input (name : string) (age : Z) : object :=
  Plain (VMap (<["name" := VString name]> (<["age" := VInt age]> ∅))).

(** The predicate [{"age": 35.0}] and a predicate of two pairs. *)
Definition age_35 : list (string * value) := [("age", VFloat 35)].
Definition john_36 : list (string * value) :=
  [("name", VString "John"); ("age", VFloat 36)].

(** John's record with a field [tags] holding an empty slice, and a
    predicate of two pairs, the second with a slice for its value. *)
Definition tagged : gmap string value :=
  <["tags" := VSlice []]> (decoded <$> john).

Definition name_tags : list (string * value) :=
  [("name", VString "John"); ("tags", VSlice [])].

(** A map of the Memdis storage as [Set] makes it: one key, with its
    value and the time it expires. *)
Definition entry (key : string) (v : value) (expiry : Z)
  : gmap string Memdis.MemdisData :=
  {[ key := {| Memdis.Value := v; Memdis.Duration := expiry |} ]}.

(** The field map [{"name": name, "age": age}] with an [int] age. *)
Definition person_fields (name : string) (age : Z) : gmap string value :=
  <["name" := VString name]> (<["age" := VInt age]> ∅).

(** The identifiers and the times drawn in the rounds of a call. *)
Definition sample_ids (k : nat) : string :=
  match k with 0 => "id-1" | 1 => "id-2" | _ => "id-3" end.

Definition sample_nows (k : nat) : string :=
  match k with 0 => "t1" | 1 => "t2" | _ => "t3" end.

(** * Properties *)

(** ** Values and their JSON form *)

Lemma value_size_elem (l : list value) (x : value) :
  x ∈ l → value_size x < value_size (VSlice l).
Proof.
  induction 1 as [x l | x y l _ IH]; simpl in *; lia.
Qed.

Lemma value_size_pairs (l : list (string * value)) (k : string) (x : value) :
  (k, x) ∈ l →
  value_size x ≤ foldr (uncurry (λ (_ : string) x n, value_size x + n)) 0 l.
Proof.
  induction l as [|[k' y] l IH]; intros Hin.
  - by apply elem_of_nil in Hin.
  - apply elem_of_cons in Hin as [Heq | Hin]; simpl.
    + inversion Heq; subst. lia.
    + specialize (IH Hin). lia.
Qed.

Lemma value_size_lookup (m : gmap string value) (k : string) (x : value) :
  m !! k = Some x → value_size x < value_size (VMap m).
Proof.
  intros Hk. simpl. rewrite map_fold_foldr.
  apply elem_of_map_to_list in Hk.
  apply value_size_pairs in Hk. lia.
Qed.

(** Induction on values with the hypothesis for every element of a
    slice and every field of a map. *)
Lemma value_nested_ind (P : value → Prop) :
  P VNil → (∀ b, P (VBool b)) → (∀ n, P (VInt n)) → (∀ f, P (VFloat f)) →
  (∀ s, P (VString s)) → (∀ t, P (VUUID t)) → (∀ t, P (VTime t)) →
  (∀ l, Forall P l → P (VSlice l)) →
  (∀ m, map_Forall (λ _, P) m → P (VMap m)) →
  P VNilMap → P VFunc →
  ∀ v, P v.
Proof.
  intros Hnil Hbool Hint Hfloat Hstr Huuid Htime Hslice Hmap Hnilmap Hfunc v.
  remember (value_size v) as n eqn:Hn.
  revert v Hn. induction n as [n IH] using lt_wf_ind. intros v ->.
  destruct v; auto.
  - apply Hslice, Forall_forall. intros x Hx.
    apply (IH (value_size x)); [by apply value_size_elem | done].
  - apply Hmap. intros k x Hk.
    apply (IH (value_size x)); [by eapply value_size_lookup | done].
Qed.

Lemma marshalable_VMap (m : gmap string value) :
  marshalable (VMap m) = true ↔ map_Forall (λ _ x, marshalable x = true) m.
Proof.
  simpl. rewrite map_fold_foldr, map_Forall_to_list.
  induction (map_to_list m) as [|[k x] l IH]; simpl.
  - split; [constructor | done].
  - rewrite andb_true_iff, IH, Forall_cons. done.
Qed.

Lemma marshalable_VSlice (l : list value) :
  marshalable (VSlice l) = true ↔ Forall (λ x, marshalable x = true) l.
Proof.
  simpl. rewrite forallb_forall, Forall_forall.
  split; intros H x Hx; apply H; by apply list_elem_of_In.
Qed.

Lemma forallb_marshalable (l : list value) :
  forallb marshalable l = true ↔ Forall (λ v, marshalable v = true) l.
Proof. apply marshalable_VSlice. Qed.

(** What has been decoded can be encoded again ... *)
Lemma marshalable_decoded (v : value) :
  marshalable v = true → marshalable (decoded v) = true.
Proof.
  induction v as [| | | | | | |l IH|m IH| |] using value_nested_ind;
    try done.
  - intros Hl. cbn [decoded]. rewrite marshalable_VSlice in Hl |- *.
    apply Forall_fmap. rewrite Forall_forall in IH, Hl |- *.
    intros x Hx. simpl. by apply IH, Hl.
  - intros Hm. cbn [decoded]. rewrite marshalable_VMap in Hm |- *.
    apply map_Forall_fmap. intros k x Hk. simpl. apply (IH k x Hk), (Hm k x Hk).
Qed.

(** ... and decodes to itself: the round trip is idempotent. *)
Lemma decoded_decoded (v : value) : decoded (decoded v) = decoded v.
Proof.
  induction v as [| | | | | | |l IH|m IH| |] using value_nested_ind;
    try done.
  - cbn [decoded]. f_equal. rewrite <- list_fmap_compose.
    apply Forall_fmap_ext_1. eapply Forall_impl; [exact IH|]. done.
  - cbn [decoded]. f_equal. rewrite <- map_fmap_compose.
    apply map_fmap_ext. intros k x Hk. by apply (IH k x Hk).
Qed.

(** ** The test of the loops *)

Lemma colName_is_spec (item : gmap string value) (c : Collection) :
  colName_is item c = true ↔ in_collection item c.
Proof.
  unfold colName_is, in_collection.
  destruct (item !! "colName") as [[]|]; try (split; [done | congruence]).
  rewrite String.eqb_eq. split; [by intros -> | congruence].
Qed.

Lemma hit_comparable (c : Collection) (item : gmap string value)
    (key : string) (val : value) :
  comparable val = true → hit c item key val = Return (hitb c item key val).
Proof.
  intros Hval. unfold hit, hitb, compare.
  destruct (colName_is item c); [|done]. simpl.
  destruct (item !! key) as [v|]; [|done].
  destruct val; try discriminate Hval; destruct v; simpl; try done;
    by match goal with |- context [bool_decide (Some ?b = _)] =>
         destruct b end.
Qed.

Lemma hitb_spec (c : Collection) (item : gmap string value)
    (key : string) (val : value) :
  hitb c item key val = true ↔ in_collection item c ∧ has_field item key val.
Proof.
  unfold hitb, has_field. rewrite andb_true_iff, colName_is_spec.
  destruct (item !! key) as [v|].
  - rewrite bool_decide_eq_true. split.
    + intros [? ?]; eauto.
    + intros [? (v' & [= <-] & ?)]; eauto.
  - split; [by intros [_ ?] | by intros [_ (? & ? & _)]].
Qed.

Lemma matchb_spec (c : Collection) (p : list (string * value))
    (item : gmap string value) :
  matchb c p item = true ↔ matches_some c p item.
Proof.
  unfold matchb, matches_some. rewrite existsb_exists. split.
  - intros ([key val] & Hin & Hhit). apply hitb_spec in Hhit as [? ?].
    split; [done|]. exists key, val. by rewrite list_elem_of_In.
  - intros (Hc & key & val & Hin & Hf). exists (key, val).
    rewrite <- list_elem_of_In. split; [done|]. by apply hitb_spec.
Qed.



Lemma comparable_predicate_cons (key : string) (val : value)
    (p : list (string * value)) :
  comparable_predicate ((key, val) :: p) ↔
  comparable val = true ∧ comparable_predicate p.
Proof. unfold comparable_predicate. by rewrite Forall_cons. Qed.

(** ** Filter.First *)

Lemma First_inner_spec (c : Collection) (item : gmap string value)
    (p : list (string * value)) (s : First_vars) :
  comparable_predicate p →
  First_inner c item p s =
  Return (if matchb c p item && (First_counter s <? 1)
          then {| First_notFound := false; First_foundObj := item;
                  First_counter := S (First_counter s) |}
          else s).
Proof.
  induction p as [|[key val] p IH]; [done|].
  intros [Hval Hp]%comparable_predicate_cons. simpl.
  rewrite hit_comparable by done. simpl.
  destruct (hitb c item key val); simpl; [|by apply IH].
  by destruct (First_counter s <? 1).
Qed.

Lemma First_outer_found (c : Collection) (objMaps : list (gmap string value))
    (p : list (string * value)) (s : First_vars) :
  comparable_predicate p → 1 ≤ First_counter s →
  First_outer c objMaps p s = Return s.
Proof.
  intros Hp Hs. induction objMaps as [|item objMaps IH]; [done|]. simpl.
  rewrite First_inner_spec by done.
  replace (First_counter s <? 1) with false
    by (symmetry; apply Nat.ltb_ge; lia).
  by rewrite andb_false_r.
Qed.

Lemma First_outer_spec (c : Collection) (objMaps : list (gmap string value))
    (p : list (string * value)) (s : First_vars) :
  comparable_predicate p → First_counter s = 0 →
  First_outer c objMaps p s =
  Return (match list_find (λ r, matchb c p r = true) objMaps with
          | Some (_, r) => {| First_notFound := false; First_foundObj := r;
                              First_counter := 1 |}
          | None => s
          end).
Proof.
  intros Hp Hs. induction objMaps as [|item objMaps IH]; [done|].
  cbn [First_outer list_find]. rewrite First_inner_spec by done. rewrite Hs.
  cbn [bind]. case_decide as Hm.
  - rewrite Hm. simpl. by apply First_outer_found.
  - apply not_true_is_false in Hm. rewrite Hm. simpl. rewrite IH.
    by destruct (list_find _ objMaps) as [[]|].
Qed.

Lemma Filter_First_spec (c : Collection) (objMaps : list (gmap string value))
    (p : list (string * value)) :
  comparable_predicate p →
  Filter_First {| Filter_objMaps := Some objMaps; Filter_filter := Some p;
                  Filter_collection := c |} =
  match list_find (λ r, matchb c p r = true) objMaps with
  | Some (_, r) => Return r
  | None => Fail (errors_New "record not found")
  end.
Proof.
  intros Hp. unfold Filter_First. simpl. rewrite First_outer_spec by done.
  by destruct (list_find _ objMaps) as [[]|].
Qed.

(** ** Filter.All *)

Lemma All_inner_spec (c : Collection) (item : gmap string value)
    (p : list (string * value)) (s : All_vars) :
  comparable_predicate p →
  All_inner c item p s =
  Return {| All_notFound := All_notFound s && negb (matchb c p item);
            All_foundObj :=
              All_foundObj s ++ replicate (hit_count c p item) item |}.
Proof.
  revert s. induction p as [|[key val] p IH]; intros s.
  - intros _. destruct s. simpl. by rewrite andb_true_r, app_nil_r.
  - intros [Hval Hp]%comparable_predicate_cons. simpl.
    rewrite hit_comparable by done. simpl. rewrite IH by done.
    unfold matchb. simpl.
    destruct (hitb c item key val); simpl; [|done].
    by rewrite andb_false_r, <- app_assoc.
Qed.

Lemma All_outer_spec (c : Collection) (objMaps : list (gmap string value))
    (p : list (string * value)) (s : All_vars) :
  comparable_predicate p →
  All_outer c objMaps p s =
  Return {| All_notFound :=
              All_notFound s && negb (existsb (matchb c p) objMaps);
            All_foundObj := All_foundObj s ++ found_items c p objMaps |}.
Proof.
  intros Hp. revert s. induction objMaps as [|item objMaps IH]; intros s.
  - destruct s. simpl. by rewrite andb_true_r, app_nil_r.
  - simpl. rewrite All_inner_spec by done. simpl. rewrite IH. simpl.
    rewrite negb_orb, andb_assoc, <- app_assoc. done.
Qed.

Lemma Filter_All_spec (c : Collection) (objMaps : list (gmap string value))
    (p : list (string * value)) (st : Storage) :
  comparable_predicate p →
  Filter_All {| Filter_objMaps := Some objMaps; Filter_filter := Some p;
                Filter_collection := c |} st =
  if existsb (matchb c p) objMaps then Return (found_items c p objMaps)
  else Fail (errors_New "record not found").
Proof.
  intros Hp. unfold Filter_All. simpl. rewrite All_outer_spec by done.
  simpl. by destruct (existsb (matchb c p) objMaps).
Qed.


Lemma existsb_matchb (c : Collection) (p : list (string * value))
    (objMaps : list (gmap string value)) :
  existsb (matchb c p) objMaps = true ↔
  ∃ r, r ∈ objMaps ∧ matches_some c p r.
Proof.
  rewrite existsb_exists. split; intros (r & Hin & Hm); exists r.
  - by rewrite list_elem_of_In, <- matchb_spec.
  - by rewrite <- list_elem_of_In, matchb_spec.
Qed.

Lemma existsb_matchb_false (c : Collection) (p : list (string * value))
    (objMaps : list (gmap string value)) :
  existsb (matchb c p) objMaps = false ↔
  ∀ r, r ∈ objMaps → ¬ matches_some c p r.
Proof.
  rewrite <- not_true_iff_false, existsb_matchb. split.
  - intros Hn r Hin Hm. apply Hn. eauto.
  - intros Hall (r & Hin & Hm). by apply (Hall r).
Qed.

(** ** Delete.One *)

Lemma del_at_ok (n index : nat) (s : slice) :
  slice_ok n s → index ≤ n → slice_ok n (del_at s index).
Proof.
  intros [Ha Hl] Hi. unfold del_at, slice_ok.
  destruct (Z.ltb_spec (Z.of_nat index) (Z.of_nat (len s) - 1));
    simpl; [|done].
  rewrite !length_app, length_take, !length_drop, length_take. lia.
Qed.

Lemma Delete_One_inner_spec (c : Collection) (index : nat)
    (item : gmap string value) (p : list (string * value)) (s : One_vars) :
  comparable_predicate p → index ≤ length (array (One_MemgodbStorage s)) →
  Delete_One_inner c index item p s =
  Return (if matchb c p item
          then {| One_notFound := false;
                  One_MemgodbStorage := del_at (One_MemgodbStorage s) index |}
          else s).
Proof.
  intros Hp Hi. induction p as [|[key val] p IH]; [done|].
  apply comparable_predicate_cons in Hp as [Hval Hp]. simpl.
  rewrite hit_comparable by done. simpl. unfold matchb. simpl.
  destruct (hitb c item key val); simpl; [|by apply IH].
  unfold del_at, slice_to.
  destruct (Z.of_nat index <? Z.of_nat (len (One_MemgodbStorage s)) - 1)%Z;
    [done|].
  by rewrite (proj2 (Nat.leb_le _ _) Hi).
Qed.

Lemma Delete_One_outer_spec (c : Collection) (p : list (string * value))
    (n : nat) (objMaps : list (gmap string value)) (index : nat)
    (s : One_vars) :
  comparable_predicate p → slice_ok n (One_MemgodbStorage s) →
  index + length objMaps ≤ n →
  Delete_One_outer c index objMaps p s =
  Return {| One_notFound :=
              One_notFound s && negb (existsb (matchb c p) objMaps);
            One_MemgodbStorage :=
              del_loop c p index objMaps (One_MemgodbStorage s) |}.
Proof.
  intros Hp. revert index s.
  induction objMaps as [|item objMaps IH]; intros index s Hok Hn.
  - destruct s. simpl. by rewrite andb_true_r.
  - simpl in Hn. simpl.
    rewrite Delete_One_inner_spec by (done || destruct Hok; lia).
    simpl. destruct (matchb c p item); simpl.
    + rewrite IH; [| simpl; apply del_at_ok; [done | lia] | lia].
      simpl. by rewrite andb_false_r.
    + rewrite IH; [done | done | lia].
Qed.

Lemma del_loop_no_match (c : Collection) (p : list (string * value))
    (objMaps : list (gmap string value)) (index : nat) (s : slice) :
  existsb (matchb c p) objMaps = false → del_loop c p index objMaps s = s.
Proof.
  revert index. induction objMaps as [|item objMaps IH]; intros index; [done|].
  simpl. intros [-> ?]%orb_false_elim. by apply IH.
Qed.

Lemma Storage_of_slice_of (st : Storage) : Storage_of st (slice_of st) = st.
Proof. destruct st as [l|]; [|done]. simpl. by rewrite firstn_all. Qed.

Lemma Delete_One_spec (c : Collection) (objMaps : list (gmap string value))
    (p : list (string * value)) (st : Storage) :
  comparable_predicate p → length objMaps ≤ length (elements st) →
  Delete_One {| Delete_objMaps := Some objMaps; Delete_filter := Some p;
                Delete_collection := c |} st =
  if existsb (matchb c p) objMaps
  then Returns tt (Storage_of st (del_loop c p 0 objMaps (slice_of st)))
  else Fails (errors_New "record not found") st.
Proof.
  intros Hp Hlen. unfold Delete_One. simpl.
  rewrite (Delete_One_outer_spec c p (length (elements st)))
    by (done || by split).
  simpl. destruct (existsb (matchb c p) objMaps) eqn:Hm; simpl; [done|].
  by rewrite del_loop_no_match, Storage_of_slice_of.
Qed.

(** ** Update.One *)

Lemma Update_One_inner_found (c : Collection) (update : list (string * value))
    (now : nat → string) (index : nat) (p : list (string * value))
    (item : gmap string value) (s : Upd_vars) :
  comparable_predicate p → index < length (Upd_MemgodbStorage s) →
  ∃ s', Update_One_inner c update now index p item s = Return s' ∧
        Upd_notFound s' = Upd_notFound s && negb (matchb c p item) ∧
        length (Upd_MemgodbStorage s') = length (Upd_MemgodbStorage s) ∧
        (matchb c p item = false → s' = s).
Proof.
  intros Hp. revert item s.
  induction p as [|[key val] p IH]; intros item s Hi.
  - exists s. simpl. by rewrite andb_true_r.
  - apply comparable_predicate_cons in Hp as [Hval Hp]. simpl.
    rewrite hit_comparable by done. simpl. unfold matchb. simpl.
    destruct (hitb c item key val); simpl.
    + destruct (Upd_counter s <? 1).
      * destruct (apply_update update now key item _) as [item' s1] eqn:Hup.
        assert (Upd_MemgodbStorage s1 = Upd_MemgodbStorage s
                ∧ Upd_notFound s1 = false) as [Hst Hnf].
        { unfold apply_update in Hup. destruct update as [|[? ?] ?];
            injection Hup as <- <-; done. }
        rewrite Hst, (proj2 (Nat.ltb_lt _ _) Hi).
        edestruct (IH Hp item') as (s' & -> & Hnf' & Hlen & _);
          [|exists s'; split; [done|]].
        { simpl. by rewrite length_insert. }
        simpl in *. rewrite length_insert in Hlen. rewrite Hnf in Hnf'.
        by rewrite andb_false_r.
      * simpl. rewrite (proj2 (Nat.ltb_lt _ _) Hi).
        edestruct (IH Hp item) as (s' & -> & Hnf' & Hlen & _);
          [|exists s'; split; [done|]].
        { simpl. by rewrite length_insert. }
        simpl in *. rewrite length_insert in Hlen.
        by rewrite andb_false_r.
    + by apply IH.
Qed.

Lemma Update_One_outer_found (c : Collection) (update : list (string * value))
    (now : nat → string) (p : list (string * value))
    (objMaps : list (gmap string value)) (index : nat) (s : Upd_vars) :
  comparable_predicate p →
  index + length objMaps ≤ length (Upd_MemgodbStorage s) →
  ∃ s', Update_One_outer c update now index objMaps p s = Return s' ∧
        Upd_notFound s' =
          Upd_notFound s && negb (existsb (matchb c p) objMaps) ∧
        length (Upd_MemgodbStorage s') = length (Upd_MemgodbStorage s) ∧
        (existsb (matchb c p) objMaps = false → s' = s).
Proof.
  intros Hp. revert index s.
  induction objMaps as [|item objMaps IH]; intros index s Hn.
  - exists s. simpl. by rewrite andb_true_r.
  - simpl in Hn. simpl.
    destruct (Update_One_inner_found c update now index p item s)
      as (s1 & -> & Hnf1 & Hlen1 & Hsame1); [done | lia |].
    simpl.
    destruct (IH (S index) s1) as (s' & -> & Hnf & Hlen & Hsame);
      [lia|].
    exists s'. split; [done|]. rewrite Hnf, Hnf1, Hlen, Hlen1.
    split; [by rewrite negb_orb, andb_assoc|]. split; [done|].
    intros [Hm1 Hm]%orb_false_elim. by rewrite Hsame, Hsame1.
Qed.


(** ** C1: the matching rule *)


Lemma list_find_no_match (c : Collection) (p : list (string * value))
    (objMaps : list (gmap string value)) :
  list_find (λ r, matchb c p r = true) objMaps = None ↔
  ∀ r, r ∈ objMaps → ¬ matches_some c p r.
Proof.
  rewrite list_find_None, Forall_forall.
  split; intros H r Hin; specialize (H r Hin); by rewrite <- matchb_spec in *.
Qed.




(** ** C4 and C9: Insert.One *)

Lemma Insert_One_fields (c : Collection) (obj : object)
    (m : gmap string value) (id now : string) (st : Storage) :
  (obj = Plain (VMap m) ∨ ∃ name, obj = Struct name m) →
  marshalable (VMap m) = true →
  Insert_One (Collection_Insert c obj) id now st =
  let r := <["updatedAt" := VNil]>
             (<["createdAt" := VTime now]>
                (<["id" := VUUID id]>
                   (<["colName" := VString (collectionName c)]>
                      (decoded <$> m)))) in
  Returns r (Some (elements st ++ [VMap r])).
Proof.
  intros Hobj Hm. unfold Insert_One, Collection_decode.
  destruct Hobj as [-> | [name ->]]; cbn -[marshalable insert];
    by rewrite Hm.
Qed.

Lemma marshalable_VMap_lookup (m : gmap string value) (key : string)
    (v : value) :
  marshalable (VMap m) = true → m !! key = Some v → marshalable v = true.
Proof. rewrite marshalable_VMap. intros Hm Hv. by apply (Hm key v). Qed.

(** C4.  [Insert.One] refuses the nil interface with an error, but a nil
    map held in the interface is not the nil interface: it passes the
    nil check and the check of the kind, [decode] leaves [objMap] nil,
    and the first assignment panics.  A value that is neither a struct
    nor a map is refused with an error, and so is a field map or a
    struct that cannot be serialized, as one holding a func or a float
    that is not finite.  On a field map that is not nil, or a struct,
    whose fields [m] can be serialized, [Insert.One] appends exactly one
    record to the store and returns it.  The record has [colName] set to
    the identifier of the handle, [id] to the identifier drawn from
    [uuid.New()], [createdAt] to the time of the call and [updatedAt] to
    nil, whatever the input holds under these four keys; under every
    other key it has the input's field as its JSON text decodes: an
    [int] as a float64, a UUID and a time as a string, a nil map as nil,
    a slice and a map with their elements decoded, every other value as
    it is.  So the map [{"name": "John", "age": 35}] is stored in a
    store not yet written to as the one record [john], with the age
    35.0. *)
Theorem C4_Insert_One (c : Collection) (id now : string) (st : Storage) :
  Insert_One (Collection_Insert c (Plain VNilMap)) id now st
  = Panics "assignment to entry in nil map" ∧
  Insert_One (Collection_Insert c (Plain VNil)) id now st
  = Fails (errors_New "One() params cannot be nil") st ∧
  (∀ obj k, Kind_of obj = Some k → k ≠ reflect.Struct → k ≠ reflect.Map →
     Insert_One (Collection_Insert c obj) id now st
     = Fails (errors_New
                "insert() param must either be a [map] or a [struct]") st) ∧
  (∀ obj m, (obj = Plain (VMap m) ∨ ∃ name, obj = Struct name m) →
     (marshalable (VMap m) = false ∨
      (∃ key, m !! key = Some VFunc) ∨
      (∃ key f, m !! key = Some (VFloat f) ∧ is_finite f = false)) →
     Insert_One (Collection_Insert c obj) id now st = Fails json_error st) ∧
  (∀ obj m, (obj = Plain (VMap m) ∨ ∃ name, obj = Struct name m) →
     marshalable (VMap m) = true →
     ∃ r, Insert_One (Collection_Insert c obj) id now st
          = Returns r (Some (elements st ++ [VMap r])) ∧
          r !! "colName" = Some (VString (collectionName c)) ∧
          r !! "id" = Some (VUUID id) ∧
          r !! "createdAt" = Some (VTime now) ∧
          r !! "updatedAt" = Some VNil ∧
          ∀ key, ¬ system_field key →
            match m !! key with
            | None => r !! key = None
            | Some (VInt n) => r !! key = Some (VFloat (float64_of_int n))
            | Some (VUUID text) | Some (VTime text) =>
                r !! key = Some (VString text)
            | Some (VSlice l) => r !! key = Some (VSlice (decoded <$> l))
            | Some (VMap fields) =>
                r !! key = Some (VMap (decoded <$> fields))
            | Some VNilMap => r !! key = Some VNil
            | Some VFunc => False
            | Some v => r !! key = Some v
            end) ∧
  Insert_One (Collection_Insert users (person_input "John" 35)) "id-1" "t1"
    None
  = Returns john (Some [VMap john]) ∧
  john !! "age" = Some (VFloat 35).
Proof.
  split; [done|]. split; [done|]. split; [|split; [|split]].
  - intros obj k Hk Hs Hm. unfold Insert_One. simpl. rewrite Hk.
    by destruct k.
  - intros obj m Hobj Hbad.
    assert (marshalable (VMap m) = false) as Hm.
    { destruct Hbad as [Hm|[(key & Hkey)|(key & f & Hkey & Hf)]]; [done|..];
        destruct (marshalable (VMap m)) eqn:Hm; try done.
      - by pose proof (marshalable_VMap_lookup m key _ Hm Hkey).
      - pose proof (marshalable_VMap_lookup m key _ Hm Hkey) as H.
        simpl in H. congruence. }
    unfold Insert_One, Collection_decode.
    destruct Hobj as [-> | [name ->]]; cbn -[marshalable insert];
      by rewrite Hm.
  - intros obj m Hobj Hm. eexists.
    split; [by apply Insert_One_fields|].
    cbn zeta. unfold system_field.
    repeat split; try by simplify_map_eq.
    intros key Hkey. rewrite !lookup_insert_ne
      by (intros Heq; apply Hkey; rewrite <- Heq; auto).
    rewrite lookup_fmap.
    destruct (m !! key) as [v|] eqn:Hv; [|done].
    pose proof (marshalable_VMap_lookup m key v Hm Hv) as Hmv.
    by destruct v.
  - split; vm_compute; reflexivity.
Qed.

(** A nil map held in the interface is not the nil interface: it passes
    both checks, [decode] leaves [objMap] nil, and the first assignment
    panics. *)
Lemma Insert_One_nil_map (c : Collection) (id now : string) (st : Storage) :
  Insert_One (Collection_Insert c (Plain VNilMap)) id now st
  = Panics "assignment to entry in nil map".
Proof. reflexivity. Qed.

(** C9.  When [Insert.One] returns an error, the store is the one it
    was called on: each error exit comes before the append. *)
Theorem C9_Insert_One_error_keeps_store (i : Insert) (id now : string)
    (st st' : Storage) (e : error) :
  Insert_One i id now st = Fails e st' → st' = st.
Proof.
  unfold Insert_One.
  destruct (Kind_of (Insert_obj i)) as [k|]; [|congruence].
  destruct (negb _ && negb _); [congruence|].
  destruct (Collection_decode (Insert_obj i)) as [[objMap|]|e'|text];
    cbn zeta; congruence.
Qed.

(** A func value in a field map: normalization fails, the store stays. *)
Lemma C9_Insert_One_error_witness :
  Insert_One (Collection_Insert users (Plain (VMap (<["f" := VFunc]> ∅))))
    "id-5" "t5" (Some [VMap john])
  = Fails json_error (Some [VMap john])
  ∧ Some [VMap john] = Some [VMap john].
Proof.
  split; [vm_compute; reflexivity|].
  apply (C9_Insert_One_error_keeps_store
           (Collection_Insert users (Plain (VMap (<["f" := VFunc]> ∅))))
           "id-5" "t5" (Some [VMap john]) (Some [VMap john]) json_error).
  vm_compute; reflexivity.
Defined.

(** ** C8 and C10: Memdis *)

Lemma Memdis_holds_spec (storage : Memdis.Storage) (key : string) :
  Memdis.holds storage key = true ↔
  ∃ cache, cache ∈ storage ∧ is_Some (cache !! key).
Proof.
  induction storage as [|cache storage IH]; simpl.
  - split; [done | by intros (? & ?%elem_of_nil & _)].
  - destruct (cache !! key) as [d|] eqn:Hc.
    + split; [|done]. intros _. exists cache. split; [left | by rewrite Hc].
    + rewrite IH. split.
      * intros (cache' & Hin & Hk). exists cache'. split; [by right | done].
      * intros (cache' & [-> | Hin]%elem_of_cons & Hk).
        -- rewrite Hc in Hk. by destruct Hk.
        -- eauto.
Qed.

Lemma Memdis_holds_app (storage data : Memdis.Storage) (key : string) :
  Memdis.holds (storage ++ data) key
  = Memdis.holds storage key || Memdis.holds data key.
Proof.
  induction storage as [|cache storage IH]; [done|]. simpl.
  by destruct (cache !! key).
Qed.

(** C8.  [Set] fails with [errKeyExists] exactly when some map of the
    storage holds the key, and then leaves the storage as it is;
    otherwise it appends one map holding the value and the time of the
    call plus the duration under the key.  After a [Set] that
    succeeded, a [Set] of the same key fails. *)
Theorem C8_Memdis_Set (key : string) (v : value) (duration : list Z)
    (now : Z) (storage : Memdis.Storage) :
  (Memdis.Set_ key v duration now storage
   = Fails Memdis.errKeyExists storage
   ↔ ∃ cache, cache ∈ storage ∧ is_Some (cache !! key)) ∧
  (Memdis.Set_ key v duration now storage
   = Returns tt
       (storage ++
        [{[ key := {| Memdis.Value := v;
                      Memdis.Duration :=
                        (now + Memdis.ttl_of duration)%Z |} ]}])
   ↔ ¬ ∃ cache, cache ∈ storage ∧ is_Some (cache !! key)) ∧
  (∀ storage' v2 duration2 now2,
     Memdis.Set_ key v duration now storage = Returns tt storage' →
     Memdis.Set_ key v2 duration2 now2 storage'
     = Fails Memdis.errKeyExists storage').
Proof.
  rewrite <- Memdis_holds_spec. unfold Memdis.Set_.
  destruct (Memdis.holds storage key) eqn:Hh.
  - split; [done|]. split; [by split|]. congruence.
  - split; [by split|]. split; [by split|].
    intros storage' v2 duration2 now2 [= <-].
    rewrite Memdis_holds_app, Hh. simpl.
    by rewrite lookup_insert_eq.
Qed.

Lemma Memdis_Get_app (key : string) (val : value)
    (storage data : Memdis.Storage) :
  Memdis.Get key storage = Return val →
  Memdis.Get key (storage ++ data) = Return val.
Proof.
  induction storage as [|cache storage IH]; [done|]. simpl.
  by destruct (cache !! key).
Qed.

Lemma Memdis_Get_new (key : string) (d : Memdis.MemdisData)
    (storage : Memdis.Storage) :
  Memdis.holds storage key = false →
  Memdis.Get key (storage ++ [{[ key := d ]}]) = Return (Memdis.Value d).
Proof.
  induction storage as [|cache storage IH]; simpl.
  - by rewrite lookup_singleton_eq.
  - destruct (cache !! key); [done | apply IH].
Qed.

(** C10.  [SetMany] returns no error and appends every map it is given,
    whatever keys the storage holds; [Get] returns the value of the
    first map that holds the key.  So after [Set] has stored a key,
    [SetMany] of a map [m] holding the same key leaves the key in two
    maps of the storage, and [Get] returns the value [Set] stored. *)
Theorem C10_Memdis_SetMany (data storage : Memdis.Storage) :
  Memdis.SetMany data storage
  = Returns (Memdis.KeyValuePairs (storage ++ data)) (storage ++ data) ∧
  (∀ key val, Memdis.Get key storage = Return val →
              Memdis.Get key (storage ++ data) = Return val) ∧
  (∀ key v duration now storage1 m d,
     Memdis.Set_ key v duration now storage = Returns tt storage1 →
     m !! key = Some d →
     ∃ first storage2,
       Memdis.SetMany [m] storage1
       = Returns (Memdis.KeyValuePairs storage2) storage2 ∧
       storage2 !! length storage = Some first ∧
       is_Some (first !! key) ∧
       storage2 !! S (length storage) = Some m ∧
       Memdis.Get key storage2 = Return v).
Proof.
  split; [done|]. split; [intros; by apply Memdis_Get_app|].
  intros key v duration now storage1 m d Hset Hm. unfold Memdis.Set_ in Hset.
  destruct (Memdis.holds storage key) eqn:Hh; [done|].
  injection Hset as <-. eexists _, _. split; [done|].
  unfold Memdis.Storage in *.
  split; [|split; [|split]].
  - rewrite lookup_app_l by (rewrite length_app; simpl; lia).
    by apply list_lookup_middle.
  - by rewrite lookup_insert_eq.
  - apply list_lookup_middle. rewrite length_app. simpl. lia.
  - apply Memdis_Get_app.
    exact (Memdis_Get_new key
             {| Memdis.Value := v;
                Memdis.Duration := (now + Memdis.ttl_of duration)%Z |}
             storage Hh).
Qed.

(** ** C6: Persist and LoadDefault *)

Lemma is_json_decoded (v : value) : marshalable v = true → is_json (decoded v).
Proof.
  split; [by apply marshalable_decoded | apply decoded_decoded].
Qed.






(** ** C2, C3, C5 and C7: where the code departs from the specification *)

(** C2.  Both sample records match [{"age": 35}]; the patch is
    [{"name": "Johnny"}].  [Update.One] leaves John's name and stores
    "Johnny" as his age: the value of the patch goes under the key of
    the predicate pair that hit ([item[key] = updateValue]), not under
    the patch's own key.  Jane's record is written back in its decoded
    form. *)
Theorem C2_Update_One_writes_under_predicate_key :
  update_One users (Some age_35) [("name", VString "Johnny")] (λ _, "t9")
    (Some [VMap john; VMap jane])
  = Returns tt
      (Some [VMap (<["updatedAt" := VTime "t9"]>
                     (<["age" := VString "Johnny"]> (decoded <$> john)));
             VMap (decoded <$> jane)])
  ∧ (<["updatedAt" := VTime "t9"]>
       (<["age" := VString "Johnny"]> (decoded <$> john))) !! "name"
    = Some (VString "John").
Proof. split; vm_compute; reflexivity. Qed.

(** C3.  John and Jane match [{"age": 35}], Xavi and Yoko do not.
    [Delete.One] removes John and Xavi and keeps Jane: its [break]
    leaves the loop over the predicate only, so the loop over the
    snapshot goes on and deletes at the index of the second match, where
    the store, one shorter by then, holds Xavi. *)
Theorem C3_Delete_One_removes_two_records :
  delete_One users (Some age_35)
    (Some [VMap john; VMap jane; VMap xavi; VMap yoko])
  = Returns tt (Some [VMap jane; VMap yoko]).
Proof. vm_compute; reflexivity. Qed.

(** C5.  On the store that was never written, which is the nil slice,
    the snapshot [objMaps] is nil for every predicate, so [All] takes
    the branch of the nil predicate and returns no record and no error,
    whereas on a store emptied by deletions it reports "record not
    found". *)
Theorem C5_Filter_All_on_nil_store (c : Collection) (p : list (string * value)) :
  find_All c (Some p) None = Return [] ∧
  find_All c (Some p) (Some []) = Fail (errors_New "record not found").
Proof. split; reflexivity. Qed.

(** C7.  The empty text passes both checks of [Collection] and gives a
    handle with the empty identifier.  A handle is returned exactly for
    the texts and the structs; the nil interface and every other value
    panic. *)
Theorem C7_Collection_empty_text :
  Memgodb_Collection (Plain (VString "")) = Return {| collectionName := "" |} ∧
  ∀ col, (∃ c, Memgodb_Collection col = Return c) ↔
         (Kind_of col = Some reflect.String ∨ Kind_of col = Some reflect.Struct).
Proof.
  split; [done|]. intros col. unfold Memgodb_Collection.
  destruct (Kind_of col) as [[]|]; simpl; split;
    try (intros [c [=]]); try (intros [[=] | [=]]); eauto.
Qed.

(** ** Delete.One when one record matches *)

Lemma del_at_elements (l : list value) (i : nat) :
  i < length l →
  take (len (del_at (slice_of (Some l)) i)) (array (del_at (slice_of (Some l)) i))
  = delete i l.
Proof.
  intros Hi. rewrite delete_take_drop. unfold del_at, slice_of. simpl.
  destruct (Z.ltb_spec (Z.of_nat i) (Z.of_nat (length l) - 1)); simpl.
  - rewrite firstn_all, app_assoc. apply take_app_length'.
    rewrite length_app, length_take, length_drop. lia.
  - replace (drop (S i) l) with (@nil value)
      by (symmetry; apply drop_ge; lia).
    by rewrite app_nil_r.
Qed.

Lemma del_loop_single (c : Collection) (p : list (string * value))
    (pre post : list (gmap string value)) (x : gmap string value)
    (index : nat) (s : slice) :
  existsb (matchb c p) pre = false → matchb c p x = true →
  existsb (matchb c p) post = false →
  del_loop c p index (pre ++ x :: post) s = del_at s (index + length pre).
Proof.
  intros Hpre Hx Hpost. revert index.
  induction pre as [|r pre IH]; intros index; simpl.
  - rewrite Hx, del_loop_no_match by done. f_equal. lia.
  - simpl in Hpre. apply orb_false_elim in Hpre as [-> Hpre].
    rewrite IH by done. f_equal. lia.
Qed.

Lemma decodeMany_length (l : list value) (objMaps : list (gmap string value)) :
  Collection_decodeMany (Some l) = Return (Some objMaps) →
  length objMaps = length l.
Proof.
  unfold Collection_decodeMany. destruct (forallb marshalable l); [|done].
  destruct (mapM as_map (decoded <$> l)) as [k|] eqn:Hk; [|done].
  intros [= <-]. apply length_mapM in Hk. by rewrite length_fmap in Hk.
Qed.

Lemma decodeMany_delete (l : list value) (objMaps : list (gmap string value))
    (i : nat) :
  Collection_decodeMany (Some l) = Return (Some objMaps) →
  Collection_decodeMany (Some (delete i l)) = Return (Some (delete i objMaps)).
Proof.
  unfold Collection_decodeMany.
  destruct (forallb marshalable l) eqn:Hm; [|done].
  destruct (mapM as_map (decoded <$> l)) as [k|] eqn:Hk; [|done].
  intros [= <-].
  assert (forallb marshalable (delete i l) = true) as ->.
  { apply forallb_marshalable, Forall_delete. by apply forallb_marshalable. }
  assert (mapM as_map (decoded <$> delete i l) = Some (delete i k)) as ->;
    [|done].
  apply mapM_Some. apply mapM_Some in Hk.
  rewrite Forall2_fmap_l in Hk |- *. by apply Forall2_delete.
Qed.

(** X1.  The part of C3 that holds.  When exactly one record of the store
    matches the predicate, [Delete.One] removes that record and leaves
    the others in place and in order, and a following [First] with the
    same predicate reports "record not found".  [pre] and [post] are the
    decoded records before and after the one that matches. *)
Theorem Delete_One_single_match (c : Collection) (p : list (string * value))
    (l : list value) (pre post : list (gmap string value))
    (x : gmap string value) :
  comparable_predicate p →
  Collection_decodeMany (Some l) = Return (Some (pre ++ x :: post)) →
  matches_some c p x →
  (∀ r, r ∈ pre ++ post → ¬ matches_some c p r) →
  delete_One c (Some p) (Some l)
  = Returns tt (Some (delete (length pre) l)) ∧
  find_First c (Some p) (Some (delete (length pre) l))
  = Fail (errors_New "record not found").
Proof.
  intros Hp Hdec Hx Hrest.
  pose proof (decodeMany_length _ _ Hdec) as Hlen.
  rewrite length_app in Hlen. simpl in Hlen.
  apply existsb_matchb_false in Hrest.
  rewrite existsb_app in Hrest. apply orb_false_elim in Hrest as [Hpre Hpost].
  apply matchb_spec in Hx. split.
  - unfold delete_One, Collection_Delete. rewrite Hdec.
    rewrite Delete_One_spec by (done || simpl; rewrite length_app; simpl; lia).
    rewrite existsb_app. simpl. rewrite Hx, orb_true_r.
    rewrite del_loop_single by done. simpl Storage_of.
    by rewrite del_at_elements by (simpl; lia).
  - unfold find_First, Collection_Filter.
    rewrite (decodeMany_delete _ _ (length pre) Hdec).
    rewrite Filter_First_spec by done.
    assert (list_find (λ r, matchb c p r = true)
              (delete (length pre) (pre ++ x :: post)) = None) as ->; [|done].
    apply list_find_no_match, existsb_matchb_false.
    rewrite delete_take_drop, take_app_length.
    rewrite (cons_middle x pre post), app_assoc.
    rewrite drop_app_length' by (rewrite length_app; simpl; lia).
    by rewrite existsb_app, Hpre, Hpost.
Qed.

Lemma Delete_One_single_match_witness :
  comparable_predicate [("name", VString "Jane")] ∧
  delete_One users (Some [("name", VString "Jane")])
    (Some [VMap john; VMap jane; VMap xavi])
  = Returns tt (Some [VMap john; VMap xavi]).
Proof.
  assert (comparable_predicate [("name", VString "Jane")]) as Hp
    by (by repeat constructor).
  split; [exact Hp|].
  refine (proj1 (Delete_One_single_match users [("name", VString "Jane")]
                   [VMap john; VMap jane; VMap xavi]
                   [decoded <$> john] [decoded <$> xavi] (decoded <$> jane)
                   Hp _ _ _)).
  - vm_compute; reflexivity.
  - apply matchb_spec. vm_compute; reflexivity.
  - apply existsb_matchb_false. vm_compute; reflexivity.
Defined.

(** ** Filter.All with a nil predicate *)

Lemma decodeMany_records (ms : list (gmap string value)) :
  Forall (λ m, marshalable (VMap m) = true) ms →
  Collection_decodeMany (Some (VMap <$> ms))
  = Return (Some ((λ m : gmap string value, decoded <$> m) <$> ms)).
Proof.
  intros Hms. unfold Collection_decodeMany.
  rewrite (proj2 (forallb_marshalable _)) by by apply Forall_fmap.
  assert (mapM as_map (decoded <$> (VMap <$> ms))
          = Some ((λ m : gmap string value, decoded <$> m) <$> ms)) as ->;
    [|done].
  apply mapM_Some. rewrite <- list_fmap_compose.
  apply Forall2_fmap, Forall_Forall2_diag, Forall_true. done.
Qed.

(** X2.  The part of C5 that holds.  With a nil predicate [All] succeeds and
    returns the decoded form of every record of the store, in order,
    whatever the collection of the handle and of the records. *)
Theorem Filter_All_nil_predicate (c : Collection)
    (ms : list (gmap string value)) :
  Forall (λ m, marshalable (VMap m) = true) ms →
  find_All c None (Some (VMap <$> ms))
  = Return ((λ m : gmap string value, decoded <$> m) <$> ms).
Proof.
  intros Hms. unfold find_All, Collection_Filter, Filter_All.
  cbn [Filter_objMaps]. by rewrite decodeMany_records.
Qed.

Lemma Filter_All_nil_predicate_witness :
  Forall (λ m, marshalable (VMap m) = true) [john; xavi] ∧
  find_All {| collectionName := "orders" |} None (Some [VMap john; VMap xavi])
  = Return [decoded <$> john; decoded <$> xavi].
Proof.
  assert (Forall (λ m, marshalable (VMap m) = true) [john; xavi]) as Hms
    by (repeat constructor; vm_compute; reflexivity).
  split; [exact Hms|].
  exact (Filter_All_nil_predicate {| collectionName := "orders" |}
           [john; xavi] Hms).
Defined.

(** ** Collection identifiers *)

Lemma last_byte_app_s (s : string) : last_byte (s +:+ "s") = Some "s"%char.
Proof.
  induction s as [|a s IH]; [done|]. simpl.
  destruct (s +:+ "s") eqn:Hs; [by destruct s|]. done.
Qed.

(** X3.  The identifier of a handle is empty or ends in "s"; "user" and
    "users" both give "users", and a struct type named Order gives
    "orders". *)
Theorem Collection_identifier (col : object) (c : Collection) :
  Memgodb_Collection col = Return c →
  (collectionName c = "" ∨ last_byte (collectionName c) = Some "s"%char) ∧
  Memgodb_Collection (Plain (VString "user")) = Return users ∧
  Memgodb_Collection (Plain (VString "users")) = Return users ∧
  Memgodb_Collection (Struct "Order" ∅)
  = Return {| collectionName := "orders" |}.
Proof.
  intros Hc. split; [|done]. unfold Memgodb_Collection in Hc.
  destruct (Kind_of col) as [k|]; [|done].
  destruct (negb _ && negb _); [done|]. cbn zeta in Hc.
  set (name := if reflect.Kind_eqb k reflect.Struct then _ else _) in Hc.
  destruct name as [|a name'] eqn:Hname; simpl in Hc.
  - injection Hc as <-. by left.
  - case_bool_decide as Hlast; simpl in Hc; injection Hc as <-; right.
    + done.
    + apply (last_byte_app_s (String a name')).
Qed.

Lemma Collection_identifier_witness :
  Memgodb_Collection (Plain (VString "Invoice"))
  = Return {| collectionName := "invoices" |} ∧
  last_byte "invoices" = Some "s"%char.
Proof.
  split; [reflexivity|].
  destruct (Collection_identifier (Plain (VString "Invoice"))
              {| collectionName := "invoices" |} eq_refl) as [[H|H] _].
  - discriminate H.
  - exact H.
Defined.

(** ** The scenario of the specification *)

(** An instance.  Inserting [{"name":"John","age":35}] and then
    [{"name":"Jane","age":35}] into "users" stores the two sample
    records; [find({"age": 35.0}).all()] returns both in the order of
    insertion and [first()] returns John's.  The predicate [{"age": 35}]
    with an [int] matches neither: the stored ages are float64. *)
Theorem insert_then_find :
  Insert_One (Collection_Insert users (person_input "John" 35)) "id-1" "t1" None
  = Returns john (Some [VMap john]) ∧
  Insert_One (Collection_Insert users (person_input "Jane" 35)) "id-2" "t2"
    (Some [VMap john])
  = Returns jane (Some [VMap john; VMap jane]) ∧
  find_All users (Some age_35) (Some [VMap john; VMap jane])
  = Return [decoded <$> john; decoded <$> jane] ∧
  find_First users (Some age_35) (Some [VMap john; VMap jane])
  = Return (decoded <$> john) ∧
  find_First users (Some [("age", VInt 35)]) (Some [VMap john; VMap jane])
  = Fail (errors_New "record not found").
Proof. repeat split; vm_compute; reflexivity. Qed.

(** ** Update.One at the first match *)

Lemma Update_One_inner_later (c : Collection) (update : list (string * value))
    (now : nat → string) (index : nat) (p : list (string * value))
    (item : gmap string value) (s : Upd_vars) :
  comparable_predicate p → 1 ≤ Upd_counter s →
  index < length (Upd_MemgodbStorage s) →
  Update_One_inner c update now index p item s =
  Return (if matchb c p item
          then {| Upd_notFound := false; Upd_counter := Upd_counter s;
                  Upd_ticks := Upd_ticks s;
                  Upd_MemgodbStorage :=
                    <[index := VMap item]> (Upd_MemgodbStorage s) |}
          else s).
Proof.
  intros Hp Hc. revert s Hc.
  induction p as [|[key val] p IH]; intros s Hc Hi; [done|].
  apply comparable_predicate_cons in Hp as [Hval Hp]. simpl.
  rewrite hit_comparable by done. simpl. unfold matchb. simpl.
  destruct (hitb c item key val); simpl; [|by apply IH].
  replace (Upd_counter s <? 1) with false
    by (symmetry; apply Nat.ltb_ge; lia).
  simpl. rewrite (proj2 (Nat.ltb_lt _ _) Hi).
  rewrite IH by (done || simpl; by rewrite ?length_insert).
  simpl. rewrite list_insert_insert_eq.
  by destruct (matchb c p item).
Qed.

Lemma Update_One_outer_later (c : Collection) (update : list (string * value))
    (now : nat → string) (p : list (string * value))
    (objMaps : list (gmap string value)) (front tail : list value)
    (s : Upd_vars) :
  comparable_predicate p → 1 ≤ Upd_counter s →
  Upd_MemgodbStorage s = front ++ tail → length tail = length objMaps →
  Update_One_outer c update now (length front) objMaps p s =
  Return {| Upd_notFound :=
              Upd_notFound s && negb (existsb (matchb c p) objMaps);
            Upd_counter := Upd_counter s; Upd_ticks := Upd_ticks s;
            Upd_MemgodbStorage := front ++ written_back c p objMaps tail |}.
Proof.
  intros Hp. revert front tail s.
  induction objMaps as [|r objMaps IH]; intros front tail s Hc Hst Hlen.
  - destruct tail; [|done]. destruct s. simpl in *. subst.
    by rewrite andb_true_r.
  - destruct tail as [|v tail]; [done|]. simpl in Hlen. simpl.
    rewrite Update_One_inner_later
      by (done || (rewrite Hst, length_app; simpl; lia)).
    simpl.
    replace (S (length front)) with (length (front ++ [if matchb c p r then VMap r else v]))
      by (rewrite length_app; simpl; lia).
    destruct (matchb c p r) eqn:Hr; simpl.
    + rewrite (IH (front ++ [VMap r]) tail); simpl; [| done | | lia].
      * by rewrite andb_false_r, <- app_assoc.
      * rewrite Hst.
        replace (length front) with (length front + 0) by lia.
        rewrite insert_app_r. simpl. by rewrite <- app_assoc.
    + rewrite (IH (front ++ [v]) tail); simpl; [| done | | lia].
      * by rewrite <- app_assoc.
      * by rewrite Hst, <- app_assoc.
Qed.

Lemma Update_One_inner_first (c : Collection) (patch : list (string * value))
    (k' : string) (v' : value) (now : nat → string) (index : nat)
    (p1 p2 : list (string * value)) (key : string) (val : value)
    (x : gmap string value) (s : Upd_vars) :
  comparable_predicate (p1 ++ (key, val) :: p2) →
  Upd_counter s = 0 → index < length (Upd_MemgodbStorage s) →
  existsb (λ kv, hitb c x kv.1 kv.2) p1 = false →
  hitb c x key val = true →
  Update_One_inner c ((k', v') :: patch) now index
    (p1 ++ (key, val) :: p2) x s =
  Return {| Upd_notFound := false; Upd_counter := 1;
            Upd_ticks := S (Upd_ticks s);
            Upd_MemgodbStorage :=
              <[index := VMap (<["updatedAt" := VTime (now (Upd_ticks s))]>
                                 (<[key := v']> x))]>
                (Upd_MemgodbStorage s) |}.
Proof.
  intros Hp Hc Hi Hp1 Hhit. induction p1 as [|[key1 val1] p1 IH]; simpl.
  - apply comparable_predicate_cons in Hp as [Hval Hp].
    rewrite hit_comparable by done. rewrite Hhit. simpl. rewrite Hc. simpl.
    rewrite (proj2 (Nat.ltb_lt _ _) Hi).
    rewrite Update_One_inner_later
      by (done || simpl; rewrite ?length_insert; lia).
    simpl. rewrite list_insert_insert_eq. by destruct (matchb c p2 _).
  - simpl in Hp, Hp1. apply comparable_predicate_cons in Hp as [Hval Hp].
    apply orb_false_elim in Hp1 as [Hk1 Hp1]. simpl in Hk1.
    rewrite hit_comparable by done. rewrite Hk1. simpl. by apply IH.
Qed.

Lemma Update_One_outer_app (c : Collection) (update : list (string * value))
    (now : nat → string) (p : list (string * value))
    (pre rest : list (gmap string value)) (index : nat) (s : Upd_vars) :
  Update_One_outer c update now index (pre ++ rest) p s =
  (let* s1 := Update_One_outer c update now index pre p s in
   Update_One_outer c update now (index + length pre) rest p s1).
Proof.
  revert index s. induction pre as [|r pre IH]; intros index s; simpl.
  - by rewrite Nat.add_0_r.
  - destruct (Update_One_inner c update now index p r s) as [s1| |];
      simpl; [|done..].
    rewrite IH. by replace (S index + length pre) with (index + S (length pre)) by lia.
Qed.

(** X5.  What [Update.One] does, for a patch that is not empty.  [x] is the
    first decoded record that some pair of the predicate hits and
    [(key, val)] the first pair that hits it; [(k', v')] is the first
    pair of the patch.  The record at the index of [x] becomes [x] with
    [v'] under [key] (the key of the predicate, whatever [k'] is) and
    the time of the call under [updatedAt]; the records before it stay;
    each later record that matches is replaced by its decoded copy. *)
Theorem Update_One_first_match (c : Collection)
    (patch p1 p2 : list (string * value)) (k' key : string) (v' val : value)
    (now : nat → string) (l : list value)
    (pre post : list (gmap string value)) (x : gmap string value) :
  let p := p1 ++ (key, val) :: p2 in
  comparable_predicate p →
  length l = length (pre ++ x :: post) →
  existsb (matchb c p) pre = false →
  existsb (λ kv, hitb c x kv.1 kv.2) p1 = false →
  hitb c x key val = true →
  Update_One {| Update_objMaps := Some (pre ++ x :: post);
                Update_filter := Some p;
                Update_update := (k', v') :: patch;
                Update_collection := c |} now (Some l)
  = Returns tt
      (Some (take (length pre) l
             ++ VMap (<["updatedAt" := VTime (now 0)]> (<[key := v']> x))
             :: written_back c p post (drop (S (length pre)) l))).
Proof.
  intros p Hp Hlen Hpre Hp1 Hhit. rewrite length_app in Hlen. simpl in Hlen.
  subst p. set (p := p1 ++ (key, val) :: p2) in *.
  cbv beta iota zeta delta
    [Update_One Update_objMaps Update_filter Update_update Update_collection
     pairs_of elements from_option id].
  set (s0 := {| Upd_notFound := true; Upd_counter := 0; Upd_ticks := 0;
                Upd_MemgodbStorage := l |}).
  rewrite Update_One_outer_app.
  destruct (Update_One_outer_found c ((k', v') :: patch) now p pre 0 s0)
    as (s1 & -> & _ & _ & Hsame); [done | simpl; lia |].
  rewrite Hsame by done. cbn [bind]. simpl "+".
  cbn [Update_One_outer].
  subst p.
  rewrite (Update_One_inner_first c patch k' v' now (length pre) p1 p2 key val
             x s0) by (done || simpl; lia).
  set (p := p1 ++ (key, val) :: p2) in *.
  cbn [bind].
  assert (l = take (length pre) l ++ drop (length pre) l) as Hl
    by (by rewrite take_drop).
  destruct (drop (length pre) l) as [|y tail] eqn:Hdrop.
  { apply (f_equal length) in Hdrop. rewrite length_drop in Hdrop.
    simpl in Hdrop. lia. }
  assert (drop (S (length pre)) l = tail) as ->.
  { replace (S (length pre)) with (length pre + 1) by lia.
    by rewrite <- drop_drop, Hdrop. }
  assert (length (take (length pre) l) = length pre) as Hpl
    by (rewrite length_take; lia).
  replace (S (length pre))
    with (length (take (length pre) l ++
                  [VMap (<["updatedAt" := VTime (now 0)]> (<[key := v']> x))]))
    by (rewrite length_app; simpl; lia).
  rewrite (Update_One_outer_later c _ now p post _ tail); simpl.
  - by rewrite <- app_assoc.
  - done.
  - lia.
  - rewrite Hl at 1. rewrite <- Hpl at 1.
    replace (length (take (length pre) l))
      with (length (take (length pre) l) + 0) by lia.
    rewrite insert_app_r. simpl. by rewrite <- app_assoc.
  - apply (f_equal length) in Hl. rewrite length_app in Hl. simpl in Hl. lia.
Qed.

(** The two sample records, the predicate [{"age": 35.0}] and the patch
    [{"name": "Johnny"}]: "Johnny" is stored as John's age. *)
Lemma Update_One_first_match_witness :
  comparable_predicate age_35 ∧
  hitb users (decoded <$> john) "age" (VFloat 35) = true ∧
  Update_One {| Update_objMaps := Some [decoded <$> john; decoded <$> jane];
                Update_filter := Some age_35;
                Update_update := [("name", VString "Johnny")];
                Update_collection := users |} (λ _, "t9")
    (Some [VMap john; VMap jane])
  = Returns tt
      (Some [VMap (<["updatedAt" := VTime "t9"]>
                     (<["age" := VString "Johnny"]> (decoded <$> john)));
             VMap (decoded <$> jane)]).
Proof.
  assert (comparable_predicate age_35) as Hp by (by repeat constructor).
  assert (hitb users (decoded <$> john) "age" (VFloat 35) = true) as Hhit
    by (vm_compute; reflexivity).
  split; [exact Hp|]. split; [exact Hhit|].
  exact (Update_One_first_match users [] [] [] "name" "age"
           (VString "Johnny") (VFloat 35) (λ _, "t9") [VMap john; VMap jane]
           [] [decoded <$> jane] (decoded <$> john)
           Hp eq_refl eq_refl eq_refl Hhit).
Defined.

(** ** The order of the pairs of the predicate *)

Lemma matchb_Permutation (c : Collection) (p p' : list (string * value))
    (item : gmap string value) :
  p ≡ₚ p' → matchb c p item = matchb c p' item.
Proof.
  unfold matchb.
  induction 1 as [|[key val] p p' _ IH|[k1 v1] [k2 v2] p|p p' p'' _ IH1 _ IH2];
    simpl; [done | by rewrite IH | | congruence].
  by rewrite !orb_assoc, (orb_comm (hitb c item k2 v2)).
Qed.

Lemma hit_count_Permutation (c : Collection) (p p' : list (string * value))
    (item : gmap string value) :
  p ≡ₚ p' → hit_count c p item = hit_count c p' item.
Proof.
  induction 1 as [|[key val] p p' _ IH|[k1 v1] [k2 v2] p|p p' p'' _ IH1 _ IH2];
    simpl; [done | by rewrite IH | lia | congruence].
Qed.

Lemma comparable_predicate_Permutation (p p' : list (string * value)) :
  p ≡ₚ p' → comparable_predicate p → comparable_predicate p'.
Proof. unfold comparable_predicate. by intros ->. Qed.

Lemma list_find_matchb_ext (c : Collection) (p p' : list (string * value))
    (objMaps : list (gmap string value)) :
  (∀ r, matchb c p r = matchb c p' r) →
  list_find (λ r, matchb c p r = true) objMaps
  = list_find (λ r, matchb c p' r = true) objMaps.
Proof.
  intros Hm. induction objMaps as [|r objMaps IH]; [done|].
  cbn [list_find]. rewrite IH.
  repeat case_decide; try done; rewrite Hm in *; congruence.
Qed.

Lemma existsb_matchb_ext (c : Collection) (p p' : list (string * value))
    (objMaps : list (gmap string value)) :
  (∀ r, matchb c p r = matchb c p' r) →
  existsb (matchb c p) objMaps = existsb (matchb c p') objMaps.
Proof.
  intros Hm. induction objMaps as [|r objMaps IH]; [done|].
  simpl. by rewrite IH, Hm.
Qed.

Lemma del_loop_ext (c : Collection) (p p' : list (string * value))
    (objMaps : list (gmap string value)) (index : nat) (s : slice) :
  (∀ r, matchb c p r = matchb c p' r) →
  del_loop c p index objMaps s = del_loop c p' index objMaps s.
Proof.
  intros Hm. revert index s.
  induction objMaps as [|r objMaps IH]; intros index s; [done|].
  simpl. by rewrite IH, Hm.
Qed.

Lemma found_items_ext (c : Collection) (p p' : list (string * value))
    (objMaps : list (gmap string value)) :
  (∀ r, hit_count c p r = hit_count c p' r) →
  found_items c p objMaps = found_items c p' objMaps.
Proof.
  intros Hm. unfold found_items.
  induction objMaps as [|r objMaps IH]; [done|].
  cbn [mbind list_bind]. by rewrite IH, Hm.
Qed.

(** X6.  For a predicate whose values can all be compared (no slice, no
    map, no func), [First], [All] and [Delete.One] return the same, and
    leave the same store, in whatever order the pairs of the predicate
    are visited.  With a value that cannot be compared the order
    matters ([order_of_pairs_uncomparable]). *)
Theorem order_of_pairs_irrelevant (c : Collection)
    (p p' : list (string * value)) (objMaps : list (gmap string value))
    (st : Storage) :
  p ≡ₚ p' → comparable_predicate p →
  length objMaps ≤ length (elements st) →
  Filter_First {| Filter_objMaps := Some objMaps; Filter_filter := Some p;
                  Filter_collection := c |}
  = Filter_First {| Filter_objMaps := Some objMaps; Filter_filter := Some p';
                    Filter_collection := c |} ∧
  Filter_All {| Filter_objMaps := Some objMaps; Filter_filter := Some p;
                Filter_collection := c |} st
  = Filter_All {| Filter_objMaps := Some objMaps; Filter_filter := Some p';
                  Filter_collection := c |} st ∧
  Delete_One {| Delete_objMaps := Some objMaps; Delete_filter := Some p;
                Delete_collection := c |} st
  = Delete_One {| Delete_objMaps := Some objMaps; Delete_filter := Some p';
                  Delete_collection := c |} st.
Proof.
  intros Hperm Hp Hlen.
  pose proof (comparable_predicate_Permutation p p' Hperm Hp) as Hp'.
  rewrite !Filter_First_spec, !Filter_All_spec, !Delete_One_spec by done.
  assert (∀ r, matchb c p r = matchb c p' r) as Hm
    by (intros r; by apply matchb_Permutation).
  assert (∀ r, hit_count c p r = hit_count c p' r) as Hn
    by (intros r; by apply hit_count_Permutation).
  rewrite (list_find_matchb_ext c p p') by done.
  rewrite (existsb_matchb_ext c p p') by done.
  rewrite (found_items_ext c p p') by done.
  by rewrite (del_loop_ext c p p') by done.
Qed.

Lemma order_of_pairs_irrelevant_witness :
  john_36 ≡ₚ reverse john_36 ∧ comparable_predicate john_36 ∧
  Filter_First {| Filter_objMaps := Some [decoded <$> john];
                  Filter_filter := Some john_36;
                  Filter_collection := users |}
  = Filter_First {| Filter_objMaps := Some [decoded <$> john];
                    Filter_filter := Some (reverse john_36);
                    Filter_collection := users |}.
Proof.
  assert (john_36 ≡ₚ reverse john_36) as Hperm
    by (symmetry; apply reverse_Permutation).
  assert (comparable_predicate john_36) as Hp by (by repeat constructor).
  split; [exact Hperm|]. split; [exact Hp|].
  refine (proj1 (order_of_pairs_irrelevant users john_36 (reverse john_36)
                   [decoded <$> john] (Some [VMap john]) Hperm Hp _)).
  simpl. lia.
Defined.

(** Without the condition on the values the order decides between a
    result and a panic.  On the record [tagged], [First] and
    [Delete.One] with the pair of the name first hit it and leave the
    loop over the predicate; with the pair of the tags first they
    compare two slices, which panics. *)
Lemma order_of_pairs_uncomparable :
  name_tags ≡ₚ reverse name_tags ∧
  Filter_First {| Filter_objMaps := Some [tagged];
                  Filter_filter := Some name_tags;
                  Filter_collection := users |}
  = Return tagged ∧
  Filter_First {| Filter_objMaps := Some [tagged];
                  Filter_filter := Some (reverse name_tags);
                  Filter_collection := users |}
  = Panic "runtime error: comparing uncomparable type" ∧
  Delete_One {| Delete_objMaps := Some [tagged];
                Delete_filter := Some name_tags;
                Delete_collection := users |} (Some [VMap tagged])
  = Returns tt (Some []) ∧
  Delete_One {| Delete_objMaps := Some [tagged];
                Delete_filter := Some (reverse name_tags);
                Delete_collection := users |} (Some [VMap tagged])
  = Panics "runtime error: comparing uncomparable type".
Proof.
  split; [symmetry; apply reverse_Permutation|].
  repeat split; vm_compute; reflexivity.
Qed.

(** ** The nil predicate *)

(** X7.  With a nil predicate [First], [Delete.One] and [Update.One]
    return the error "filter params cannot be nil" and leave the store as
    it is, whatever the store holds. *)
Theorem nil_predicate_errors (c : Collection) (obj : list (string * value))
    (now : nat → string) (st : Storage) :
  find_First c None st = Fail (errors_New "filter params cannot be nil") ∧
  delete_One c None st = Fails (errors_New "filter params cannot be nil") st ∧
  update_One c None obj now st
  = Fails (errors_New "filter params cannot be nil") st.
Proof. by repeat split. Qed.

(** ** Memdis: Del, Clear and Size *)

Lemma Memdis_Get_holds (key : string) (storage : Memdis.Storage) :
  Memdis.Get key storage = Fail Memdis.errKeyNotFound
  ↔ Memdis.holds storage key = false.
Proof.
  induction storage as [|cache storage IH]; simpl; [done|].
  by destruct (cache !! key).
Qed.

Lemma Memdis_Del_loop_missing (key : string) (index : nat)
    (rest storage : Memdis.Storage) :
  Memdis.holds rest key = false →
  Memdis.Del_loop key index rest storage
  = Fails Memdis.errKeyNotFound storage.
Proof.
  revert index. induction rest as [|cache rest IH]; intros index; simpl;
    [done|].
  destruct (cache !! key); [done | auto].
Qed.

Lemma Memdis_Del_loop_found (key : string) (cache : gmap string Memdis.MemdisData)
    (pre mid post : Memdis.Storage) :
  Memdis.holds mid key = false → is_Some (cache !! key) →
  Memdis.Del_loop key (length pre) (mid ++ cache :: post)
    (pre ++ mid ++ cache :: post)
  = Returns tt (pre ++ mid ++ post).
Proof.
  intros Hmid [d Hd]. revert pre Hmid.
  induction mid as [|x mid IH]; intros pre Hmid; simpl in *.
  - rewrite Hd. f_equal. unfold Memdis.Storage in *.
    rewrite take_app_length.
    by rewrite (cons_middle cache pre post), app_assoc,
      drop_app_length' by (rewrite length_app; simpl; lia).
  - destruct (x !! key) eqn:Hx; [done|].
    specialize (IH (pre ++ [x]) Hmid).
    rewrite length_app in IH. simpl in IH.
    replace (length pre + 1) with (S (length pre)) in IH by lia.
    by rewrite <- !app_assoc in IH.
Qed.

(** X8.  [Del] fails with [errKeyNotFound], leaving the storage as it
    is, exactly when [Get] does; otherwise it takes out the first map
    that holds the key, the whole map with every key it has, and keeps
    the others in their order. *)
Theorem Memdis_Del (key : string) (storage : Memdis.Storage) :
  (Memdis.Del key storage = Fails Memdis.errKeyNotFound storage
   ↔ Memdis.Get key storage = Fail Memdis.errKeyNotFound) ∧
  (∀ pre cache post,
     storage = pre ++ cache :: post →
     Memdis.holds pre key = false → is_Some (cache !! key) →
     Memdis.Del key storage = Returns tt (pre ++ post)).
Proof.
  assert (Hfound : ∀ pre cache post,
     storage = pre ++ cache :: post →
     Memdis.holds pre key = false → is_Some (cache !! key) →
     Memdis.Del key storage = Returns tt (pre ++ post)).
  { intros pre cache post -> Hpre Hc.
    exact (Memdis_Del_loop_found key cache [] pre post Hpre Hc). }
  split; [|done]. rewrite Memdis_Get_holds. split.
  - intros HDel. destruct (Memdis.holds storage key) eqn:Hh; [|done].
    exfalso. clear Hfound. revert HDel. unfold Memdis.Del.
    generalize storage at 2 3 as whole. generalize 0 as index.
    induction storage as [|cache storage IH]; intros index whole; simpl in *;
      [done|].
    destruct (cache !! key); [done|]. by apply IH.
  - apply Memdis_Del_loop_missing.
Qed.

Lemma Memdis_holds_split (key : string) (storage : Memdis.Storage) :
  Memdis.holds storage key = true →
  ∃ pre cache post,
    storage = pre ++ cache :: post ∧
    Memdis.holds pre key = false ∧ is_Some (cache !! key).
Proof.
  induction storage as [|x storage IH]; simpl; [done|].
  destruct (x !! key) as [d|] eqn:Hx.
  - intros _. exists [], x, storage. by rewrite Hx.
  - intros (pre & cache & post & -> & Hpre & Hc)%IH.
    exists (x :: pre), cache, post. simpl. by rewrite Hx.
Qed.

Lemma Memdis_Del_inv (key : string) (storage storage' : Memdis.Storage) :
  Memdis.Del key storage = Returns tt storage' →
  ∃ pre cache post,
    storage = pre ++ cache :: post ∧ storage' = pre ++ post ∧
    Memdis.holds pre key = false ∧ is_Some (cache !! key).
Proof.
  intros HDel. destruct (Memdis.holds storage key) eqn:Hh.
  - destruct (Memdis_holds_split key storage Hh)
      as (pre & cache & post & -> & Hpre & Hc).
    exists pre, cache, post.
    pose proof (Memdis_Del_loop_found key cache [] pre post Hpre Hc) as HD.
    simpl in HD. unfold Memdis.Del in HDel. rewrite HD in HDel.
    by injection HDel as <-.
  - unfold Memdis.Del in HDel.
    by rewrite Memdis_Del_loop_missing in HDel.
Qed.

Lemma Memdis_Get_other (key key' : string) (d : Memdis.MemdisData)
    (storage : Memdis.Storage) :
  key' ≠ key →
  Memdis.Get key' (storage ++ [{[ key := d ]}]) = Memdis.Get key' storage.
Proof.
  intros Hne. induction storage as [|cache storage IH]; simpl.
  - by rewrite lookup_singleton_ne.
  - by destruct (cache !! key').
Qed.

(** X9.  A [Set] that succeeds is undone by [Del]: after the [Set],
    [Get] returns the value for the key and what it returned before for
    every other key; [Del] of the key then gives back the storage as it
    was before the [Set], in which [Get] of the key fails. *)
Theorem Memdis_Set_then_Del (key : string) (v : value) (duration : list Z)
    (now : Z) (storage storage' : Memdis.Storage) :
  Memdis.Set_ key v duration now storage = Returns tt storage' →
  Memdis.Get key storage' = Return v ∧
  (∀ key', key' ≠ key → Memdis.Get key' storage' = Memdis.Get key' storage) ∧
  Memdis.Del key storage' = Returns tt storage ∧
  Memdis.Get key storage = Fail Memdis.errKeyNotFound.
Proof.
  unfold Memdis.Set_. destruct (Memdis.holds storage key) eqn:Hh; [done|].
  intros [= <-]. split; [|split; [|split]].
  - exact (Memdis_Get_new key
             {| Memdis.Value := v;
                Memdis.Duration := (now + Memdis.ttl_of duration)%Z |}
             storage Hh).
  - intros key' Hne. by apply Memdis_Get_other.
  - pose proof (Memdis_Del_loop_found key
      (<[key := {| Memdis.Value := v;
                   Memdis.Duration := (now + Memdis.ttl_of duration)%Z |}]> ∅)
      [] storage [] Hh) as HD.
    simpl in HD. rewrite app_nil_r in HD. apply HD.
    by rewrite lookup_insert_eq.
  - by apply Memdis_Get_holds.
Qed.

Lemma Memdis_Set_then_Del_witness :
  Memdis.Set_ "b" (VString "x") [2%Z] 5%Z [entry "a" (VInt 1) 10]
  = Returns tt [entry "a" (VInt 1) 10; entry "b" (VString "x") 7] ∧
  Memdis.Get "b" [entry "a" (VInt 1) 10; entry "b" (VString "x") 7]
  = Return (VString "x") ∧
  Memdis.Del "b" [entry "a" (VInt 1) 10; entry "b" (VString "x") 7]
  = Returns tt [entry "a" (VInt 1) 10].
Proof.
  assert (Memdis.Set_ "b" (VString "x") [2%Z] 5%Z [entry "a" (VInt 1) 10]
          = Returns tt [entry "a" (VInt 1) 10; entry "b" (VString "x") 7])
    as HSet by (vm_compute; reflexivity).
  split; [exact HSet|].
  destruct (Memdis_Set_then_Del "b" (VString "x") [2%Z] 5%Z
              [entry "a" (VInt 1) 10] _ HSet) as (HGet & _ & HDel & _).
  split; [exact HGet | exact HDel].
Defined.

(** ** Removing in place *)

Lemma remove_in_place_length {A : Type} (arr : list A) (len index : nat) :
  S index ≤ len → len ≤ length arr →
  length (remove_in_place arr len index) = length arr.
Proof.
  intros Hi Hl. unfold remove_in_place.
  rewrite !length_app, length_take, !length_drop, length_take. lia.
Qed.

Lemma remove_in_place_lookup_lt {A : Type} (arr : list A)
    (len index i : nat) :
  S index ≤ len → len ≤ length arr → i < index →
  remove_in_place arr len index !! i = arr !! i.
Proof.
  intros Hi Hl Hlt. unfold remove_in_place.
  rewrite lookup_app_l by (rewrite length_take; lia).
  by rewrite lookup_take_lt.
Qed.

Lemma remove_in_place_lookup_mid {A : Type} (arr : list A)
    (len index i : nat) :
  S index ≤ len → len ≤ length arr → index ≤ i → i < len - 1 →
  remove_in_place arr len index !! i = arr !! S i.
Proof.
  intros Hi Hl Hge Hlt. unfold remove_in_place.
  rewrite lookup_app_r by (rewrite length_take; lia).
  rewrite length_take.
  rewrite lookup_app_l by (rewrite length_drop, length_take; lia).
  rewrite lookup_drop, lookup_take_lt by lia. f_equal. lia.
Qed.

Lemma remove_in_place_lookup_ge {A : Type} (arr : list A)
    (len index i : nat) :
  S index ≤ len → len ≤ length arr → len - 1 ≤ i →
  remove_in_place arr len index !! i = arr !! i.
Proof.
  intros Hi Hl Hge. unfold remove_in_place.
  rewrite lookup_app_r by (rewrite length_take; lia).
  rewrite length_take.
  rewrite lookup_app_r by (rewrite length_drop, length_take; lia).
  rewrite length_drop, length_take, lookup_drop. f_equal. lia.
Qed.

Lemma take_remove_in_place {A : Type} (arr : list A) (len index : nat) :
  S index ≤ len → len ≤ length arr →
  take (len - 1) (remove_in_place arr len index)
  = take index arr ++ drop (S index) (take len arr).
Proof.
  intros Hi Hl. unfold remove_in_place. rewrite app_assoc.
  apply take_app_length'.
  rewrite length_app, length_take, length_drop, length_take. lia.
Qed.

(** ** Memdis: OverWrite and OverWriteWithKey *)

(** The loop passes over maps that do not hold the key. *)
Lemma OverWrite_loop_skip (key : string) (n remaining index : nat)
    (isFound : bool) (arr : Memdis.Storage) (len : nat) :
  (∀ i, index ≤ i → i < index + n →
        ∃ cache, arr !! i = Some cache ∧ cache !! key = None) →
  Memdis.OverWrite_loop key (n + remaining) index isFound arr len
  = Memdis.OverWrite_loop key remaining (index + n) isFound arr len.
Proof.
  revert index. induction n as [|n IH]; intros index Hskip; simpl.
  - by rewrite Nat.add_0_r.
  - destruct (Hskip index) as (cache & -> & ->); [lia..|].
    rewrite IH; [f_equal; lia|].
    intros i ? ?. apply Hskip; lia.
Qed.

Lemma Memdis_holds_false (key : string) (storage : Memdis.Storage) :
  Memdis.holds storage key = false ↔
  ∀ cache, cache ∈ storage → cache !! key = None.
Proof.
  rewrite <- not_true_iff_false, Memdis_holds_spec. split.
  - intros Hno cache Hin. destruct (cache !! key) eqn:Hc; [|done].
    destruct Hno. exists cache. by rewrite Hc.
  - intros Hall (cache & Hin & [d Hd]). by rewrite (Hall cache Hin) in Hd.
Qed.

Lemma OverWrite_loop_missing (key : string) (storage : Memdis.Storage) :
  Memdis.holds storage key = false →
  Memdis.OverWrite_loop key (length storage) 0 false storage (length storage)
  = Return (false, storage, length storage).
Proof.
  intros Hh.
  pose proof (OverWrite_loop_skip key (length storage) 0 0 false storage
                (length storage)) as Hs.
  rewrite Nat.add_0_r in Hs. rewrite Hs; [done|].
  intros i _ Hi. unfold Memdis.Storage in *.
  destruct (lookup_lt_is_Some_2 storage i) as [cache Hc];
    [simpl in Hi; lia|].
  exists cache. split; [done|].
  apply (proj1 (Memdis_holds_false key storage) Hh).
  by apply list_elem_of_lookup_2 in Hc.
Qed.

(** With one holder of the key, the loop takes it out and reads the
    maps after it one slot lower. *)
Lemma OverWrite_loop_unique (key : string)
    (cache : gmap string Memdis.MemdisData) (pre post : Memdis.Storage) :
  Memdis.holds pre key = false → is_Some (cache !! key) →
  Memdis.holds post key = false →
  ∃ arr,
    Memdis.OverWrite_loop key (length (pre ++ cache :: post)) 0 false
      (pre ++ cache :: post) (length (pre ++ cache :: post))
    = Return (true, arr, length (pre ++ post)) ∧
    take (length (pre ++ post)) arr = pre ++ post.
Proof.
  intros Hpre [d Hd] Hpost. unfold Memdis.Storage in *.
  set (storage := pre ++ cache :: post).
  assert (length storage = length pre + S (length post)) as Hlen
    by (unfold storage; rewrite length_app; simpl; lia).
  exists (remove_in_place storage (length storage) (length pre)).
  assert (length (pre ++ post) = length storage - 1) as Hlen'
    by (rewrite length_app; lia).
  split.
  - rewrite Hlen at 1.
    rewrite OverWrite_loop_skip.
    2:{ intros i _ Hi. simpl in Hi.
        destruct (lookup_lt_is_Some_2 pre i) as [x Hx]; [lia|].
        exists x. unfold Memdis.Storage in *. split.
        - unfold storage. by rewrite lookup_app_l by lia.
        - apply (proj1 (Memdis_holds_false key pre) Hpre).
          by apply list_elem_of_lookup_2 in Hx. }
    cbn [Memdis.OverWrite_loop Nat.add]. unfold Memdis.Storage in *.
    assert (storage !! length pre = Some cache) as ->
      by (unfold storage; by rewrite list_lookup_middle).
    rewrite Hd.
    destruct (Nat.leb_spec (S (length pre)) (length storage)) as [_|]; [|lia].
    pose proof (OverWrite_loop_skip key (length post) 0 (S (length pre)) true
                  (remove_in_place storage (length storage) (length pre))
                  (length storage - 1)) as Hs.
    rewrite Nat.add_0_r in Hs. rewrite Hs; [by rewrite Hlen'|].
    intros i Hge Hlt. unfold Memdis.Storage in *.
    assert (∃ x, (i < length storage - 1 ∧ storage !! S i = Some x
                  ∧ x ∈ post)
                 ∨ (i = length storage - 1 ∧ storage !! i = Some x
                    ∧ x ∈ post)) as (x & Hx).
    { destruct (decide (i < length storage - 1)) as [Hi|Hi].
      - destruct (lookup_lt_is_Some_2 post (i - length pre)) as [x Hx];
          [lia|].
        exists x. left. split; [done|].
        split; [|by apply list_elem_of_lookup_2 in Hx].
        unfold storage. rewrite lookup_app_r by lia.
        replace (S i - length pre) with (S (i - length pre)) by lia.
        done.
      - destruct (lookup_lt_is_Some_2 post (i - S (length pre))) as [x Hx];
          [lia|].
        exists x. right. split; [lia|].
        split; [|by apply list_elem_of_lookup_2 in Hx].
        unfold storage. rewrite lookup_app_r by lia.
        replace (i - length pre) with (S (i - S (length pre))) by lia.
        done. }
    exists x. destruct Hx as [(Hi & Hx & Hin)|(Hi & Hx & Hin)].
    + split; [|by apply (proj1 (Memdis_holds_false key post) Hpost)].
      rewrite remove_in_place_lookup_mid by lia. done.
    + split; [|by apply (proj1 (Memdis_holds_false key post) Hpost)].
      rewrite remove_in_place_lookup_ge by lia. done.
  - rewrite Hlen', take_remove_in_place by lia.
    unfold storage. rewrite take_app_length, firstn_all.
    by rewrite (cons_middle cache pre post), app_assoc,
      drop_app_length' by (rewrite length_app; simpl; lia).
Qed.

Lemma OverWrite_loop_found (key : string) (remaining index : nat)
    (arr : Memdis.Storage) (len : nat) (isFound : bool)
    (arr' : Memdis.Storage) (len' : nat) :
  Memdis.OverWrite_loop key remaining index true arr len
  = Return (isFound, arr', len') →
  isFound = true.
Proof.
  revert index arr len.
  induction remaining as [|remaining IH]; intros index arr len;
    cbn [Memdis.OverWrite_loop].
  - by intros [= <- _ _].
  - destruct (arr !! index) as [cache|]; [|done].
    destruct (cache !! key); [|apply IH].
    destruct (S index <=? len); [apply IH | done].
Qed.

Lemma OverWrite_loop_no_Fail (key : string) (remaining index : nat)
    (isFound : bool) (arr : Memdis.Storage) (len : nat) (e : error) :
  Memdis.OverWrite_loop key remaining index isFound arr len ≠ Fail e.
Proof.
  revert index isFound arr len.
  induction remaining as [|remaining IH]; intros index isFound arr len;
    cbn [Memdis.OverWrite_loop]; [done|].
  destruct (arr !! index) as [cache|]; [|done].
  destruct (cache !! key); [|apply IH].
  destruct (S index <=? len); [apply IH | done].
Qed.

Lemma OverWriteWithKey_one_holder (prevkey newKey : string) (v : value)
    (duration : list Z) (now : Z) (cache : gmap string Memdis.MemdisData)
    (pre post : Memdis.Storage) :
  Memdis.holds pre prevkey = false → is_Some (cache !! prevkey) →
  Memdis.holds post prevkey = false →
  Memdis.OverWriteWithKey prevkey newKey v duration now
    (pre ++ cache :: post)
  = Returns tt
      (pre ++ post ++
       [{[ newKey := {| Memdis.Value := v;
                        Memdis.Duration :=
                          (now + Memdis.ttl_of duration)%Z |} ]}]).
Proof.
  intros Hpre Hc Hpost. unfold Memdis.OverWriteWithKey.
  destruct (OverWrite_loop_unique prevkey cache pre post Hpre Hc Hpost)
    as (arr & -> & Harr).
  simpl. unfold Memdis.Storage in *. by rewrite Harr, <- app_assoc.
Qed.

(** X10.  When one map of the storage holds the key, [OverWriteWithKey]
    takes that map out, with every key it has, and appends a map that
    holds the value under the new key alone, with the time of the call
    plus the duration; the other maps keep their order.  [Get] then
    returns the value for the new key unless another map holds that key
    already.  [OverWrite] does so with the key itself, and [Get]
    returns the new value. *)
Theorem Memdis_OverWrite_one_holder (prevkey newKey : string) (v : value)
    (duration : list Z) (now : Z) (cache : gmap string Memdis.MemdisData)
    (pre post : Memdis.Storage) :
  Memdis.holds pre prevkey = false → is_Some (cache !! prevkey) →
  Memdis.holds post prevkey = false →
  let fs (key : string) : gmap string Memdis.MemdisData :=
    {[ key := {| Memdis.Value := v;
                 Memdis.Duration := (now + Memdis.ttl_of duration)%Z |} ]} in
  Memdis.OverWriteWithKey prevkey newKey v duration now
    (pre ++ cache :: post)
  = Returns tt (pre ++ post ++ [fs newKey]) ∧
  (Memdis.holds (pre ++ post) newKey = false →
   Memdis.Get newKey (pre ++ post ++ [fs newKey]) = Return v) ∧
  Memdis.OverWrite prevkey v duration now (pre ++ cache :: post)
  = Returns tt (pre ++ post ++ [fs prevkey]) ∧
  Memdis.Get prevkey (pre ++ post ++ [fs prevkey]) = Return v.
Proof.
  intros Hpre Hc Hpost fs.
  assert (HGet : ∀ key, Memdis.holds (pre ++ post) key = false →
            Memdis.Get key (pre ++ post ++ [fs key]) = Return v).
  { intros key Hh. rewrite app_assoc.
    exact (Memdis_Get_new key
             {| Memdis.Value := v;
                Memdis.Duration := (now + Memdis.ttl_of duration)%Z |}
             (pre ++ post) Hh). }
  split; [by apply OverWriteWithKey_one_holder|]. split; [apply HGet|].
  split; [by apply OverWriteWithKey_one_holder|]. apply HGet.
  by rewrite Memdis_holds_app, Hpre, Hpost.
Qed.

Lemma Memdis_OverWrite_one_holder_witness :
  Memdis.OverWrite "a" (VInt 9) [] 100
    [entry "a" (VInt 1) 10; entry "b" (VInt 2) 20]
  = Returns tt [entry "b" (VInt 2) 20; entry "a" (VInt 9) 100] ∧
  Memdis.Get "a" [entry "b" (VInt 2) 20; entry "a" (VInt 9) 100]
  = Return (VInt 9).
Proof.
  destruct (Memdis_OverWrite_one_holder "a" "a" (VInt 9) [] 100
              (entry "a" (VInt 1) 10) [] [entry "b" (VInt 2) 20])
    as (_ & _ & HO & HGet).
  - reflexivity.
  - exists {| Memdis.Value := VInt 1; Memdis.Duration := 10 |}.
    vm_compute; reflexivity.
  - vm_compute; reflexivity.
  - split; [exact HO | exact HGet].
Defined.

Lemma OverWriteWithKey_missing (prevkey newKey : string) (v : value)
    (duration : list Z) (now : Z) (storage : Memdis.Storage) :
  Memdis.holds storage prevkey = false →
  Memdis.OverWriteWithKey prevkey newKey v duration now storage
  = Fails Memdis.errKeyNotFound storage.
Proof.
  intros Hh. unfold Memdis.OverWriteWithKey.
  rewrite OverWrite_loop_missing by done. simpl.
  unfold Memdis.Storage in *. by rewrite firstn_all.
Qed.

(** X11.  [OverWriteWithKey], and so [OverWrite], fails with
    [errKeyNotFound] exactly when no map holds the key to replace, and
    then leaves the storage as it is: it never adds a key on its own. *)
Theorem Memdis_OverWrite_missing (prevkey newKey : string) (v : value)
    (duration : list Z) (now : Z) (storage : Memdis.Storage) :
  (∃ storage', Memdis.OverWriteWithKey prevkey newKey v duration now storage
               = Fails Memdis.errKeyNotFound storage')
  ↔ Memdis.Get prevkey storage = Fail Memdis.errKeyNotFound
    ∧ Memdis.OverWriteWithKey prevkey newKey v duration now storage
      = Fails Memdis.errKeyNotFound storage.
Proof.
  rewrite Memdis_Get_holds. split; [|intros [_ H]; eauto].
  intros [storage' HO].
  destruct (Memdis.holds storage prevkey) eqn:Hh.
  - exfalso. revert HO. unfold Memdis.OverWriteWithKey.
    destruct (Memdis_holds_split prevkey storage Hh)
      as (pre & cache & post & -> & Hpre & [d Hd]).
    unfold Memdis.Storage in *.
    assert (length (pre ++ cache :: post) = length pre + S (length post))
      as Hlen by (rewrite length_app; simpl; lia).
    rewrite Hlen at 1. rewrite OverWrite_loop_skip.
    2:{ intros i _ Hi. simpl in Hi.
        destruct (lookup_lt_is_Some_2 pre i) as [x Hx]; [lia|].
        exists x. unfold Memdis.Storage in *. split.
        - by rewrite lookup_app_l by lia.
        - apply (proj1 (Memdis_holds_false prevkey pre) Hpre).
          by apply list_elem_of_lookup_2 in Hx. }
    cbn [Memdis.OverWrite_loop Nat.add]. unfold Memdis.Storage in *.
    rewrite list_lookup_middle by done. rewrite Hd.
    destruct (S (length pre) <=? length (pre ++ cache :: post)); [|done].
    destruct (Memdis.OverWrite_loop _ _ _ true _ _)
      as [[[isFound arr] len]| |] eqn:Hloop.
    + by rewrite (OverWrite_loop_found _ _ _ _ _ _ _ _ Hloop).
    + by apply OverWrite_loop_no_Fail in Hloop.
    + done.
  - split; [done|]. by apply OverWriteWithKey_missing.
Qed.

(** Once a map has been taken out, a holder of the key in the last slot
    of the array is read at an index that is past the shortened
    slice. *)
Lemma OverWrite_loop_stale (key : string)
    (cache : gmap string Memdis.MemdisData) (remaining index : nat)
    (isFound : bool) (arr : Memdis.Storage) (len : nat) :
  is_Some (cache !! key) →
  arr !! (length arr - 1) = Some cache →
  len < length arr → 1 ≤ remaining → index + remaining = length arr →
  Memdis.OverWrite_loop key remaining index isFound arr len
  = Panic "runtime error: slice bounds out of range".
Proof.
  intros [d Hd]. revert index isFound arr len.
  induction remaining as [|remaining IH];
    intros index isFound arr len Hlast Hlen Hrem Hidx; [lia|].
  cbn [Memdis.OverWrite_loop]. unfold Memdis.Storage in *.
  destruct (lookup_lt_is_Some_2 arr index) as [x Hx]; [lia|].
  rewrite Hx. destruct (x !! key) as [dx|] eqn:Hxk.
  - destruct (Nat.leb_spec (S index) len) as [Hle|Hgt]; [|done].
    apply IH.
    + rewrite remove_in_place_length by lia.
      rewrite remove_in_place_lookup_ge by lia. done.
    + rewrite remove_in_place_length by lia. lia.
    + lia.
    + rewrite remove_in_place_length by lia. lia.
  - destruct remaining as [|remaining].
    + replace index with (length arr - 1) in Hx by lia. congruence.
    + apply IH; [done | done | lia | lia].
Qed.

Lemma OverWriteWithKey_two_holders (prevkey newKey : string) (v : value)
    (duration : list Z) (now : Z) (cache : gmap string Memdis.MemdisData)
    (pre : Memdis.Storage) :
  Memdis.holds pre prevkey = true → is_Some (cache !! prevkey) →
  Memdis.OverWriteWithKey prevkey newKey v duration now (pre ++ [cache])
  = Panics "runtime error: slice bounds out of range".
Proof.
  intros Hpre Hc. unfold Memdis.OverWriteWithKey.
  destruct (Memdis_holds_split prevkey pre Hpre)
    as (pre1 & h & pre2 & -> & Hpre1 & [d Hd]).
  unfold Memdis.Storage in *.
  set (storage := (pre1 ++ h :: pre2) ++ [cache]).
  assert (∃ n, 1 ≤ n ∧ length storage = length pre1 + S n)
    as (n & Hn & Hlen).
  { exists (S (length pre2)). split; [lia|].
    unfold storage. rewrite !length_app. simpl. lia. }
  assert (storage !! length pre1 = Some h) as Hh.
  { unfold storage. rewrite <- app_assoc. by apply list_lookup_middle. }
  assert (storage !! (length storage - 1) = Some cache) as Hlast.
  { unfold storage. apply list_lookup_middle.
    rewrite !length_app. simpl. lia. }
  rewrite Hlen at 1. rewrite OverWrite_loop_skip.
  2:{ intros i _ Hi. simpl in Hi.
      destruct (lookup_lt_is_Some_2 pre1 i) as [x Hx]; [lia|].
      exists x. unfold Memdis.Storage in *. split.
      - unfold storage. rewrite <- app_assoc. by rewrite lookup_app_l by lia.
      - apply (proj1 (Memdis_holds_false prevkey pre1) Hpre1).
        by apply list_elem_of_lookup_2 in Hx. }
  cbn [Memdis.OverWrite_loop Nat.add]. unfold Memdis.Storage in *.
  rewrite Hh, Hd.
  destruct (Nat.leb_spec (S (length pre1)) (length storage)) as [_|]; [|lia].
  rewrite (OverWrite_loop_stale prevkey cache); [done | done | ..].
  - unfold Memdis.Storage in *. rewrite remove_in_place_length by lia.
    rewrite remove_in_place_lookup_ge by lia. done.
  - rewrite remove_in_place_length by lia. lia.
  - lia.
  - rewrite remove_in_place_length by lia. lia.
Qed.

(** X12.  When the last map of the storage holds the key and an earlier
    map holds it as well, [OverWriteWithKey] and [OverWrite] panic: the
    loop goes on after taking a map out, and reads the last slot of the
    array when the slice has become shorter. *)
Theorem Memdis_OverWrite_panics (prevkey newKey : string) (v : value)
    (duration : list Z) (now : Z) (cache : gmap string Memdis.MemdisData)
    (pre : Memdis.Storage) :
  Memdis.holds pre prevkey = true → is_Some (cache !! prevkey) →
  Memdis.OverWriteWithKey prevkey newKey v duration now (pre ++ [cache])
  = Panics "runtime error: slice bounds out of range" ∧
  Memdis.OverWrite prevkey v duration now (pre ++ [cache])
  = Panics "runtime error: slice bounds out of range".
Proof.
  intros Hpre Hc. unfold Memdis.OverWrite.
  split; by apply OverWriteWithKey_two_holders.
Qed.

Lemma Memdis_OverWrite_panics_witness :
  Memdis.holds [entry "k" (VInt 1) 10] "k" = true ∧
  Memdis.OverWrite "k" (VInt 9) [] 100
    [entry "k" (VInt 1) 10; entry "k" (VInt 2) 20]
  = Panics "runtime error: slice bounds out of range".
Proof.
  assert (Memdis.holds [entry "k" (VInt 1) 10] "k" = true) as Hh
    by (vm_compute; reflexivity).
  split; [exact Hh|].
  apply (Memdis_OverWrite_panics "k" "k" (VInt 9) [] 100
           (entry "k" (VInt 2) 20) [entry "k" (VInt 1) 10] Hh).
  exists {| Memdis.Value := VInt 2; Memdis.Duration := 20 |}.
  vm_compute; reflexivity.
Defined.



(** ** Memdis: Size *)

Lemma OverWrite_loop_shorter (key : string) (remaining index : nat)
    (isFound : bool) (arr : Memdis.Storage) (len : nat)
    (isFound' : bool) (arr' : Memdis.Storage) (len' : nat) :
  Memdis.OverWrite_loop key remaining index isFound arr len
  = Return (isFound', arr', len') →
  len ≤ length arr → (isFound = true → len < length arr) →
  len' ≤ length arr' ∧ length arr' = length arr ∧
  (isFound' = true → len' < length arr').
Proof.
  revert index isFound arr len.
  induction remaining as [|remaining IH]; intros index isFound arr len;
    cbn [Memdis.OverWrite_loop].
  - by intros [= <- <- <-].
  - destruct (arr !! index) as [cache|]; [|done].
    destruct (cache !! key); [|apply IH].
    destruct (Nat.leb_spec (S index) len) as [Hle|]; [|done].
    intros Hloop Hlen Hfound.
    apply IH in Hloop; unfold Memdis.Storage in *;
      rewrite ?remove_in_place_length in * by lia; [done | lia | lia].
Qed.

(** X14.  [Size] counts the maps of the storage: a [Set] that succeeds
    adds one, a [Del] that succeeds takes one away, [SetMany] adds one
    for each map it is given, [Clear] leaves none, and an
    [OverWriteWithKey] that succeeds leaves at least one and never more
    than there were. *)
Theorem Memdis_Size (storage : Memdis.Storage) :
  (∀ key v duration now storage',
     Memdis.Set_ key v duration now storage = Returns tt storage' →
     Memdis.Size storage' = S (Memdis.Size storage)) ∧
  (∀ key storage',
     Memdis.Del key storage = Returns tt storage' →
     S (Memdis.Size storage') = Memdis.Size storage) ∧
  (∀ data saved storage',
     Memdis.SetMany data storage = Returns saved storage' →
     Memdis.Size storage' = Memdis.Size storage + length data ∧
     length saved = Memdis.Size storage') ∧
  (∃ storage',
     Memdis.Clear storage = Returns tt storage' ∧
     Memdis.Size storage' = 0 ∧
     ∀ key, Memdis.Get key storage' = Fail Memdis.errKeyNotFound) ∧
  (∀ prevkey newKey v duration now storage',
     Memdis.OverWriteWithKey prevkey newKey v duration now storage
     = Returns tt storage' →
     1 ≤ Memdis.Size storage' ∧ Memdis.Size storage' ≤ Memdis.Size storage).
Proof.
  unfold Memdis.Size. split; [|split; [|split; [|split]]].
  - intros key v duration now storage'. unfold Memdis.Set_.
    destruct (Memdis.holds storage key); [done|]. intros [= <-].
    rewrite length_app. simpl. lia.
  - intros key storage'
      (pre & cache & post & -> & -> & _)%Memdis_Del_inv.
    rewrite !length_app. simpl. lia.
  - intros data saved storage'. unfold Memdis.SetMany. intros [= <- <-].
    unfold Memdis.KeyValuePairs. by rewrite length_fmap, length_app.
  - by exists [].
  - intros prevkey newKey v duration now storage'.
    unfold Memdis.OverWriteWithKey.
    destruct (Memdis.OverWrite_loop _ _ _ _ _ _)
      as [[[isFound arr] len]| |] eqn:Hloop; [|done..].
    destruct isFound; [|done]. simpl. intros [= <-].
    apply OverWrite_loop_shorter in Hloop as (Hle & Hlen & Hlt); [|done..].
    unfold Memdis.Storage in *.
    rewrite length_app, length_take. simpl. specialize (Hlt eq_refl). lia.
Qed.

(** ** Memdis: GetMany, Keys, Values and TypeOf *)

Lemma GetMany_inner_spec (cache : gmap string Memdis.MemdisData)
    (keys : list string) (data : gmap string value) (n : nat) :
  ∃ data',
    Memdis.GetMany_inner cache keys data n
    = (data', n + length (filter (λ key, is_Some (cache !! key)) keys)) ∧
    ∀ key, data' !! key
           = if decide (key ∈ keys ∧ is_Some (cache !! key))
             then Memdis.Value <$> cache !! key else data !! key.
Proof.
  revert data n. induction keys as [|k keys IH]; intros data n;
    cbn [Memdis.GetMany_inner].
  - exists data. split; [by rewrite Nat.add_0_r|].
    intros key. case_decide as H; [|done]. by destruct H as [?%elem_of_nil _].
  - destruct (cache !! k) as [val|] eqn:Hk.
    + destruct (IH (<[k := Memdis.Value val]> data) (S n))
        as (data' & -> & Hdata').
      exists data'. split.
      * rewrite filter_cons_True by (by rewrite Hk). simpl. f_equal. lia.
      * intros key. rewrite Hdata'.
        case_decide as H1; case_decide as H2; try done.
        -- destruct H2. destruct H1 as [Hin Hc]. split; [by right | done].
        -- destruct H2 as [[->|Hin]%elem_of_cons Hc].
           ++ by rewrite lookup_insert_eq, Hk.
           ++ by destruct H1.
        -- destruct (decide (key = k)) as [->|Hne].
           ++ destruct H2. split; [by left | by rewrite Hk].
           ++ by rewrite lookup_insert_ne.
    + destruct (IH data n) as (data' & -> & Hdata').
      exists data'. split.
      * by rewrite filter_cons_False by (rewrite Hk; by intros [??]).
      * intros key. rewrite Hdata'.
        case_decide as H1; case_decide as H2; try done.
        -- destruct H2. destruct H1 as [Hin Hc]. split; [by right | done].
        -- destruct H2 as [[->|Hin]%elem_of_cons Hc].
           ++ rewrite Hk in Hc. by destruct Hc.
           ++ by destruct H1.
Qed.

(** X15.  [GetMany] goes through the maps of the storage in order.  For
    each of them it returns one map for every requested key found in
    it, a key asked for twice counting twice; all these are the one map
    the round has filled, so each of them holds the values of all the
    requested keys found in that map of the storage. *)
Theorem Memdis_GetMany (keys : list string) (storage : Memdis.Storage) :
  Memdis.GetMany keys storage
  = storage ≫= λ cache : gmap string Memdis.MemdisData,
      replicate (length (filter (λ key, is_Some (cache !! key)) keys))
        (Memdis.Value <$> filter (λ kv, kv.1 ∈ keys) cache).
Proof.
  unfold Memdis.GetMany.
  induction storage as [|cache storage IH]; [done|].
  rewrite !bind_cons, IH. f_equal.
  destruct (GetMany_inner_spec cache keys ∅ 0) as (data' & -> & Hdata').
  cbn [Nat.add]. f_equal. apply map_eq. intros key.
  rewrite Hdata', lookup_fmap, lookup_empty.
  case_decide as Hno.
  - destruct Hno as [Hin [d Hd]]. rewrite Hd.
    assert (filter (λ kv : string * Memdis.MemdisData, kv.1 ∈ keys) cache
            !! key = Some d) as ->; [|done].
    by apply map_lookup_filter_Some.
  - destruct (filter _ cache !! key) as [d|] eqn:Hf; [|done].
    apply map_lookup_filter_Some in Hf as [Hd Hin]. simpl in Hin.
    destruct Hno. split; [done | by rewrite Hd].
Qed.

Lemma Memdis_Keys_holds (key : string) (storage : Memdis.Storage) :
  key ∈ Memdis.Keys storage ↔ Memdis.holds storage key = true.
Proof.
  rewrite Memdis_holds_spec. unfold Memdis.Keys. rewrite list_elem_of_bind.
  split.
  - intros (cache & ([k d] & -> & Hd%elem_of_map_to_list)%list_elem_of_fmap
            & Hin).
    exists cache. split; [done|]. simpl. by rewrite Hd.
  - intros (cache & Hin & [d Hd]). exists cache. split; [|done].
    apply list_elem_of_fmap. exists (key, d). split; [done|].
    by apply elem_of_map_to_list.
Qed.

Lemma Memdis_Get_Return (key : string) (storage : Memdis.Storage) :
  Memdis.holds storage key = true
  ↔ ∃ v, Memdis.Get key storage = Return v.
Proof.
  induction storage as [|cache storage IH]; simpl.
  - split; [done | by intros [? ?]].
  - destruct (cache !! key); [|done]. split; [eauto | done].
Qed.

(** X16.  [Keys] lists the keys for which [Get] finds a value, and no
    other; [Values] has a value for each key listed, among them every
    value [Get] returns.  A [Set] that succeeds appends its key and its
    value to the two lists. *)
Theorem Memdis_Keys_Values (storage : Memdis.Storage) :
  (∀ key, key ∈ Memdis.Keys storage
          ↔ ∃ v, Memdis.Get key storage = Return v) ∧
  length (Memdis.Values storage) = length (Memdis.Keys storage) ∧
  (∀ key v, Memdis.Get key storage = Return v → v ∈ Memdis.Values storage) ∧
  (∀ key v duration now storage',
     Memdis.Set_ key v duration now storage = Returns tt storage' →
     Memdis.Keys storage' = Memdis.Keys storage ++ [key] ∧
     Memdis.Values storage' = Memdis.Values storage ++ [v]).
Proof.
  split; [|split; [|split]].
  - intros key. by rewrite Memdis_Keys_holds, Memdis_Get_Return.
  - unfold Memdis.Values, Memdis.Keys.
    induction storage as [|cache storage IH]; [done|].
    rewrite !bind_cons, !length_app, IH. by rewrite !length_fmap.
  - intros key v. unfold Memdis.Values.
    induction storage as [|cache storage IH]; simpl; [done|].
    destruct (cache !! key) as [d|] eqn:Hd.
    + intros [= <-]. apply elem_of_app. left.
      apply list_elem_of_fmap. exists d. split; [done|].
      apply list_elem_of_fmap. exists (key, d). split; [done|].
      by apply elem_of_map_to_list.
    + intros Hin%IH. apply elem_of_app. by right.
  - intros key v duration now storage'. unfold Memdis.Set_.
    destruct (Memdis.holds storage key); [done|]. intros [= <-].
    unfold Memdis.Keys, Memdis.Values.
    rewrite !bind_app. simpl.
    rewrite insert_empty, map_to_list_singleton. simpl.
    by rewrite ?app_nil_r.
Qed.

(** X17.  [TypeOf] looks the key up as [Get] does: it fails with
    [errKeyNotFound] exactly when [Get] does, and returns the name of
    the type of the value [Get] returns; when that value is nil it
    panics. *)
Theorem Memdis_TypeOf (key : string) (storage : Memdis.Storage) :
  (Memdis.TypeOf key storage = Fail Memdis.errKeyNotFound
   ↔ Memdis.Get key storage = Fail Memdis.errKeyNotFound) ∧
  (∀ v name, Memdis.Get key storage = Return v →
             Memdis.type_name v = Some name →
             Memdis.TypeOf key storage = Return name) ∧
  (Memdis.Get key storage = Return VNil →
   Memdis.TypeOf key storage
   = Panic "invalid memory address or nil pointer dereference").
Proof.
  induction storage as [|cache storage (IH1 & IH2 & IH3)]; simpl.
  - done.
  - destruct (cache !! key) as [d|]; [|done].
    split; [|split].
    + by destruct (Memdis.type_name (Memdis.Value d)).
    + by intros v name [= ->] ->.
    + by intros [= ->].
Qed.

(** ** Memdis: storages in which no key is held twice *)

Lemma Memdis_Keys_app (storage data : Memdis.Storage) :
  Memdis.Keys (storage ++ data) = Memdis.Keys storage ++ Memdis.Keys data.
Proof. unfold Memdis.Keys. by rewrite bind_app. Qed.

Lemma Memdis_not_in_Keys (key : string) (storage : Memdis.Storage) :
  key ∉ Memdis.Keys storage ↔ Memdis.holds storage key = false.
Proof. rewrite Memdis_Keys_holds. by destruct (Memdis.holds storage key). Qed.

Lemma unique_keys_holder (key : string)
    (cache : gmap string Memdis.MemdisData) (pre post : Memdis.Storage) :
  unique_keys (pre ++ cache :: post) → is_Some (cache !! key) →
  Memdis.holds pre key = false ∧ Memdis.holds post key = false ∧
  unique_keys (pre ++ post).
Proof.
  unfold unique_keys. intros Hnd [d Hd].
  rewrite Memdis_Keys_app in *.
  change (cache :: post) with ([cache] ++ post) in Hnd.
  rewrite Memdis_Keys_app in Hnd.
  apply NoDup_app in Hnd as (Hpre & Hdisj & (_ & Hdisj' & Hpost)%NoDup_app).
  assert (key ∈ Memdis.Keys [cache]) as Hin.
  { apply Memdis_Keys_holds. simpl. by rewrite Hd. }
  split; [|split].
  - apply Memdis_not_in_Keys. intros Hk. apply (Hdisj key Hk).
    apply elem_of_app. by left.
  - apply Memdis_not_in_Keys. by apply Hdisj'.
  - apply NoDup_app. split; [done|]. split; [|done].
    intros x Hx Hx'. apply (Hdisj x Hx). apply elem_of_app. by right.
Qed.

Lemma unique_keys_snoc (key : string) (d : Memdis.MemdisData)
    (storage : Memdis.Storage) :
  unique_keys storage → Memdis.holds storage key = false →
  unique_keys (storage ++ [{[ key := d ]}]).
Proof.
  unfold unique_keys. intros Hnd Hh. rewrite Memdis_Keys_app.
  apply NoDup_app. split; [done|]. split.
  - intros x Hx Hx'. unfold Memdis.Keys in Hx'. simpl in Hx'.
    rewrite map_to_list_singleton in Hx'. simpl in Hx'.
    apply list_elem_of_singleton in Hx' as ->.
    by apply Memdis_not_in_Keys in Hh.
  - unfold Memdis.Keys. simpl. rewrite map_to_list_singleton. simpl.
    apply NoDup_singleton.
Qed.

(** X18.  When no key is held by two maps of the storage, that stays so
    after every [Set], [Del] and [OverWrite] that succeeds.  On such a
    storage [Del] leaves nothing for [Get] to find under the key, and
    [OverWrite] does not panic: it fails with [errKeyNotFound] and
    changes nothing when [Get] fails, and otherwise succeeds, keeps the
    number of maps, and leaves the new value for [Get] to return. *)
Theorem Memdis_unique_keys_kept (storage : Memdis.Storage) :
  unique_keys storage →
  (∀ key v duration now storage',
     Memdis.Set_ key v duration now storage = Returns tt storage' →
     unique_keys storage') ∧
  (∀ key storage',
     Memdis.Del key storage = Returns tt storage' →
     unique_keys storage' ∧
     Memdis.Get key storage' = Fail Memdis.errKeyNotFound) ∧
  (∀ key v duration now,
     (Memdis.Get key storage = Fail Memdis.errKeyNotFound ∧
      Memdis.OverWrite key v duration now storage
      = Fails Memdis.errKeyNotFound storage) ∨
     (∃ storage',
        Memdis.OverWrite key v duration now storage = Returns tt storage' ∧
        unique_keys storage' ∧
        Memdis.Size storage' = Memdis.Size storage ∧
        Memdis.Get key storage' = Return v)).
Proof.
  intros Hu. split; [|split].
  - intros key v duration now storage'. unfold Memdis.Set_.
    destruct (Memdis.holds storage key) eqn:Hh; [done|]. intros [= <-].
    by apply unique_keys_snoc.
  - intros key storage'
      (pre & cache & post & -> & -> & Hpre & Hc)%Memdis_Del_inv.
    destruct (unique_keys_holder key cache pre post Hu Hc)
      as (_ & Hpost & Hu').
    split; [done|]. apply Memdis_Get_holds.
    by rewrite Memdis_holds_app, Hpre, Hpost.
  - intros key v duration now.
    destruct (Memdis.holds storage key) eqn:Hh.
    + right.
      destruct (Memdis_holds_split key storage Hh)
        as (pre & cache & post & -> & Hpre & Hc).
      destruct (unique_keys_holder key cache pre post Hu Hc)
        as (_ & Hpost & Hu').
      eexists.
      split; [by apply (OverWriteWithKey_one_holder key key)|].
      split; [|split].
      * rewrite app_assoc. apply unique_keys_snoc; [done|].
        by rewrite Memdis_holds_app, Hpre, Hpost.
      * unfold Memdis.Size, Memdis.Storage in *.
        rewrite !length_app. simpl. lia.
      * rewrite app_assoc. apply Memdis_Get_new.
        by rewrite Memdis_holds_app, Hpre, Hpost.
    + left. split; [by apply Memdis_Get_holds|].
      by apply OverWriteWithKey_missing.
Qed.

Lemma Memdis_unique_keys_kept_witness :
  unique_keys [entry "a" (VInt 1) 10; entry "b" (VInt 2) 20] ∧
  ∃ storage',
    Memdis.Del "a" [entry "a" (VInt 1) 10; entry "b" (VInt 2) 20]
    = Returns tt storage' ∧
    unique_keys storage' ∧
    Memdis.Get "a" storage' = Fail Memdis.errKeyNotFound.
Proof.
  assert (unique_keys [entry "a" (VInt 1) 10; entry "b" (VInt 2) 20]) as Hu.
  { unfold unique_keys, Memdis.Keys, entry. simpl.
    rewrite !map_to_list_singleton. simpl.
    apply NoDup_cons. split; [|apply NoDup_singleton].
    by intros ?%list_elem_of_singleton. }
  split; [exact Hu|].
  exists [entry "b" (VInt 2) 20].
  assert (Memdis.Del "a" [entry "a" (VInt 1) 10; entry "b" (VInt 2) 20]
          = Returns tt [entry "b" (VInt 2) 20]) as HDel
    by (vm_compute; reflexivity).
  split; [exact HDel|].
  exact (proj1 (proj2 (Memdis_unique_keys_kept _ Hu)) "a" _ HDel).
Defined.

(** ** Delete.All *)

Lemma Delete_All_inner_no_hit (c : Collection) (index : Z)
    (item : gmap string value) (p : list (string * value)) (s : One_vars) :
  comparable_predicate p → hit_count c p item = 0 →
  Delete_All_inner c index item p s = Return s.
Proof.
  intros Hp. induction p as [|[key val] p IH]; [done|].
  apply comparable_predicate_cons in Hp as [Hval Hp]. simpl.
  rewrite (hit_comparable c item key val Hval). simpl.
  destruct (hitb c item key val); [done|]. intros Hc. by apply IH.
Qed.

Lemma Delete_All_inner_one_hit (c : Collection) (index : nat)
    (item : gmap string value) (p : list (string * value)) (s : One_vars) :
  comparable_predicate p → hit_count c p item ≤ 1 →
  Delete_All_inner c (Z.of_nat index) item p s
  = Delete_One_inner c index item p s.
Proof.
  intros Hp. induction p as [|[key val] p IH]; [done|].
  apply comparable_predicate_cons in Hp as [Hval Hp]. simpl.
  rewrite (hit_comparable c item key val Hval). simpl.
  destruct (hitb c item key val); [|by apply IH].
  intros Hc.
  destruct (Z.ltb_spec (Z.of_nat index) 0) as [|_]; [lia|].
  rewrite Nat2Z.id.
  destruct (Z.of_nat index <? Z.of_nat (len (One_MemgodbStorage s)) - 1)%Z.
  - apply Delete_All_inner_no_hit; [done | lia].
  - destruct (slice_to (One_MemgodbStorage s) index) as [s'| |]; simpl;
      [|done..].
    apply Delete_All_inner_no_hit; [done | lia].
Qed.

Lemma Delete_All_outer_one_hit (c : Collection) (index : nat)
    (objMaps : list (gmap string value)) (p : list (string * value))
    (s : One_vars) :
  comparable_predicate p →
  Forall (λ item, hit_count c p item ≤ 1) objMaps →
  Delete_All_outer c index objMaps p s = Delete_One_outer c index objMaps p s.
Proof.
  intros Hp Hall. revert index s.
  induction Hall as [|item objMaps Hitem Hall IH]; intros index s; [done|].
  simpl. rewrite Delete_All_inner_one_hit by done.
  destruct (Delete_One_inner c index item p s); simpl; [apply IH | done..].
Qed.

Lemma hit_count_one_pair (c : Collection) (key : string) (val : value)
    (item : gmap string value) :
  hit_count c [(key, val)] item ≤ 1.
Proof. simpl. destruct (hitb c item key val); lia. Qed.

(** X19.  When the values of the predicate are comparable and no record
    of the snapshot is hit by two pairs of the predicate, as with every
    predicate of one pair, [Delete.All] does what [Delete.One] does: it
    returns the same result and leaves the same store. *)
Theorem Delete_All_as_Delete_One (c : Collection)
    (objMaps : list (gmap string value)) (p : list (string * value))
    (st : Storage) :
  comparable_predicate p →
  Forall (λ item, hit_count c p item ≤ 1) objMaps →
  Delete_All {| Delete_objMaps := Some objMaps; Delete_filter := Some p;
                Delete_collection := c |} st
  = Delete_One {| Delete_objMaps := Some objMaps; Delete_filter := Some p;
                  Delete_collection := c |} st.
Proof.
  intros Hp Hall. unfold Delete_All, Delete_One. simpl.
  by rewrite Delete_All_outer_one_hit.
Qed.

Lemma Delete_All_as_Delete_One_witness :
  comparable_predicate age_35 ∧
  Delete_All {| Delete_objMaps :=
                  Some [decoded <$> john; decoded <$> jane;
                        decoded <$> xavi; decoded <$> yoko];
                Delete_filter := Some age_35; Delete_collection := users |}
    (Some [VMap john; VMap jane; VMap xavi; VMap yoko])
  = Returns tt (Some [VMap jane; VMap yoko]).
Proof.
  assert (comparable_predicate age_35) as Hp by (by repeat constructor).
  split; [exact Hp|].
  rewrite (Delete_All_as_Delete_One users
             [decoded <$> john; decoded <$> jane;
              decoded <$> xavi; decoded <$> yoko] age_35
             (Some [VMap john; VMap jane; VMap xavi; VMap yoko]) Hp).
  - vm_compute; reflexivity.
  - repeat constructor; apply Nat.leb_le; vm_compute; reflexivity.
Defined.

Lemma Delete_All_inner_negative (c : Collection) (index : Z)
    (item : gmap string value) (p : list (string * value)) (s : One_vars) :
  comparable_predicate p → (index < 0)%Z → 1 ≤ hit_count c p item →
  Delete_All_inner c index item p s
  = Panic "runtime error: slice bounds out of range".
Proof.
  intros Hp Hneg. induction p as [|[key val] p IH]; simpl; [lia|].
  apply comparable_predicate_cons in Hp as [Hval Hp].
  rewrite (hit_comparable c item key val Hval). simpl.
  destruct (hitb c item key val).
  - intros _. by destruct (Z.ltb_spec index 0) as [_|]; [|lia].
  - simpl. by apply IH.
Qed.

Lemma Delete_All_inner_two_hits (c : Collection)
    (item : gmap string value) (p : list (string * value)) (s : One_vars) :
  comparable_predicate p → 2 ≤ len (One_MemgodbStorage s) →
  2 ≤ hit_count c p item →
  Delete_All_inner c 0 item p s
  = Panic "runtime error: slice bounds out of range".
Proof.
  intros Hp Hlen. induction p as [|[key val] p IH]; simpl; [lia|].
  apply comparable_predicate_cons in Hp as [Hval Hp].
  rewrite (hit_comparable c item key val Hval). simpl.
  destruct (hitb c item key val).
  - intros Hc.
    destruct (Z.ltb_spec 0 (Z.of_nat (len (One_MemgodbStorage s)) - 1))
      as [_|]; [|lia].
    apply Delete_All_inner_negative; [done | lia | lia].
  - simpl. by apply IH.
Qed.

(** X20.  When two pairs of the predicate hit the first record of a
    store of two records or more, [Delete.All] panics: after the first
    deletion [index--] has made the index negative, and the second hit
    slices the store with it. *)
Theorem Delete_All_two_hits_panics (c : Collection)
    (item : gmap string value) (objMaps : list (gmap string value))
    (p : list (string * value)) (st : Storage) :
  comparable_predicate p → 2 ≤ length (elements st) →
  2 ≤ hit_count c p item →
  Delete_All {| Delete_objMaps := Some (item :: objMaps);
                Delete_filter := Some p; Delete_collection := c |} st
  = Panics "runtime error: slice bounds out of range".
Proof.
  intros Hp Hlen Hc. unfold Delete_All. simpl.
  by rewrite Delete_All_inner_two_hits.
Qed.

Lemma Delete_All_two_hits_panics_witness :
  comparable_predicate [("name", VString "John"); ("age", VFloat 35)] ∧
  delete_All users (Some [("name", VString "John"); ("age", VFloat 35)])
    (Some [VMap john; VMap jane])
  = Panics "runtime error: slice bounds out of range".
Proof.
  assert (comparable_predicate
            [("name", VString "John"); ("age", VFloat 35)]) as Hp
    by (by repeat constructor).
  split; [exact Hp|].
  unfold delete_All, Collection_Delete.
  assert (Collection_decodeMany (Some [VMap john; VMap jane])
          = Return (Some [decoded <$> john; decoded <$> jane])) as ->
    by (vm_compute; reflexivity).
  apply (Delete_All_two_hits_panics users (decoded <$> john)
           [decoded <$> jane] _ (Some [VMap john; VMap jane]) Hp).
  - simpl. lia.
  - apply Nat.leb_le. vm_compute; reflexivity.
Defined.

(** X21.  With a nil predicate, [Delete.All] succeeds and leaves no
    record in the store, whatever the collection of the handle and of
    the records; it does the same when the store is nil and the
    predicate is not. *)
Theorem Delete_All_nil_predicate (c : Collection) (st : Storage) :
  (∃ st', delete_All c None st = Returns tt st' ∧ elements st' = [] ∧
          (st' = None ↔ st = None)) ∧
  (∀ p, delete_All c (Some p) None = Returns tt None).
Proof.
  split; [|done]. destruct st as [l|]; eexists; (split; [reflexivity|]);
    by split.
Qed.

(** ** Insert.Many *)

Lemma append_snoc (st : Storage) (x : value) (xs : list value) :
  append (Some (elements st ++ [x])) xs = append st (x :: xs).
Proof.
  destruct xs as [|y xs]; simpl; [done|]. by rewrite <- app_assoc.
Qed.

Lemma records_of_cons (c : Collection) (ids nows : nat → string) (k : nat)
    (m : gmap string value) (ms : list (gmap string value)) :
  records_of c ids nows k (m :: ms)
  = record_of c (ids k) (nows k) (decoded <$> m)
    :: records_of c ids nows (S k) ms.
Proof.
  unfold records_of. rewrite imap_cons, Nat.add_0_r. f_equal.
  apply imap_ext. intros j x _. simpl.
  by replace (k + S j) with (S (k + j)) by lia.
Qed.

Lemma decoded_VMap_marshalable (m : gmap string value) :
  marshalable (VMap m) = true → marshalable (VMap (decoded <$> m)) = true.
Proof. apply (marshalable_decoded (VMap m)). Qed.

Lemma decoded_fmap_decoded (m : gmap string value) :
  decoded <$> (decoded <$> m) = decoded <$> m.
Proof.
  pose proof (decoded_decoded (VMap m)) as H. cbn [decoded] in H.
  by injection H.
Qed.

Lemma Many_loop_maps (c : Collection) (ids nows : nat → string) (k : nat)
    (ms savedData : list (gmap string value)) (st : Storage) :
  Forall (λ m, marshalable (VMap m) = true) ms →
  Many_loop c ids nows k
    (Some <$> ((λ m : gmap string value, decoded <$> m) <$> ms))
    savedData st
  = Returns (savedData ++ records_of c ids nows k ms)
      (append st (VMap <$> records_of c ids nows k ms)).
Proof.
  intros Hms. revert k savedData st.
  induction Hms as [|m ms Hm Hms IH]; intros k savedData st.
  - simpl. by rewrite app_nil_r.
  - rewrite !fmap_cons. cbn [Many_loop of_nilable_map].
    rewrite (Insert_One_fields c _ (decoded <$> m))
      by (eauto using decoded_VMap_marshalable).
    cbn zeta. rewrite decoded_fmap_decoded.
    rewrite IH, records_of_cons, <- app_assoc. f_equal.
    rewrite fmap_cons. apply append_snoc.
Qed.

Lemma decodeMany_of_maps (ms : list (gmap string value)) :
  Forall (λ m, marshalable (VMap m) = true) ms →
  decodeMany_of (Plain (VSlice (VMap <$> ms)))
  = Return (Some (Some <$> ((λ m : gmap string value, decoded <$> m)
                             <$> ms))).
Proof.
  intros Hms. unfold decodeMany_of. cbn [marshalable_object decoded_object].
  rewrite (proj2 (marshalable_VSlice _)) by by apply Forall_fmap.
  cbn [decoded].
  assert (mapM as_nilable_map (decoded <$> (VMap <$> ms))
          = Some (Some <$> ((λ m : gmap string value, decoded <$> m)
                             <$> ms))) as ->; [|done].
  apply mapM_Some. rewrite <- !list_fmap_compose.
  apply Forall2_fmap. by apply Forall_Forall2_diag, Forall_true.
Qed.

Lemma Insert_Many_records (c : Collection) (ms : list (gmap string value))
    (ids nows : nat → string) (st : Storage) :
  Forall (λ m, marshalable (VMap m) = true) ms →
  Insert_Many (Collection_Insert c (Plain VNil)) (Plain (VSlice (VMap <$> ms)))
    ids nows st
  = Returns (records_of c ids nows 0 ms)
      (append st (VMap <$> records_of c ids nows 0 ms)).
Proof.
  intros Hms. unfold Insert_Many.
  cbn [Kind_of Collection_Insert Insert_obj Insert_collection].
  cbn [reflect.Kind_eqb negb].
  rewrite decodeMany_of_maps by done. cbn [default from_option id].
  by rewrite Many_loop_maps.
Qed.

(** X22.  [Insert(nil).Many] on a slice of field maps that can be
    serialized does what [Insert.One] does for each map in turn: it
    appends one record for each, in the order of the slice, with the
    fields in decoded form, the identifier of the handle under
    [colName], the identifier and the time drawn in that round under
    [id] and [createdAt], and nil under [updatedAt]; it returns these
    records. *)
Theorem Insert_Many_maps (c : Collection) (ms : list (gmap string value))
    (ids nows : nat → string) (st : Storage) :
  Forall (λ m, marshalable (VMap m) = true) ms →
  ∃ saved,
    Insert_Many (Collection_Insert c (Plain VNil))
      (Plain (VSlice (VMap <$> ms))) ids nows st
    = Returns saved (append st (VMap <$> saved)) ∧
    length saved = length ms ∧
    ∀ k m, ms !! k = Some m →
           saved !! k
           = Some (record_of c (ids k) (nows k) (decoded <$> m)).
Proof.
  intros Hms. exists (records_of c ids nows 0 ms).
  split; [by apply Insert_Many_records|]. unfold records_of.
  split; [apply length_imap|].
  intros k m Hk. by rewrite list_lookup_imap, Hk.
Qed.

Lemma Insert_Many_maps_witness :
  Forall (λ m, marshalable (VMap m) = true)
    [person_fields "John" 35; person_fields "Jane" 35] ∧
  ∃ saved,
    Insert_Many (Collection_Insert users (Plain VNil))
      (Plain (VSlice [VMap (person_fields "John" 35);
                      VMap (person_fields "Jane" 35)]))
      sample_ids sample_nows None
    = Returns saved (append None (VMap <$> saved)) ∧
    saved !! 0 = Some john ∧ saved !! 1 = Some jane.
Proof.
  assert (Forall (λ m, marshalable (VMap m) = true)
            [person_fields "John" 35; person_fields "Jane" 35]) as Hms
    by (repeat constructor; vm_compute; reflexivity).
  split; [exact Hms|].
  destruct (Insert_Many_maps users
              [person_fields "John" 35; person_fields "Jane" 35]
              sample_ids sample_nows None Hms) as (saved & HM & _ & Hk).
  exists saved. split; [exact HM|]. split.
  - rewrite (Hk 0 _ eq_refl). vm_compute; reflexivity.
  - rewrite (Hk 1 _ eq_refl). vm_compute; reflexivity.
Defined.

Lemma is_json_VSlice (l : list value) :
  is_json (VSlice l) → Forall is_json l.
Proof.
  intros [Hm Hd]. apply marshalable_VSlice in Hm.
  cbn [decoded] in Hd. injection Hd as Hd.
  apply Forall_lookup. intros i x Hx. split.
  - by apply (Forall_lookup_1 _ _ _ _ Hm Hx).
  - apply (f_equal (λ l, l !! i)) in Hd.
    rewrite list_lookup_fmap, Hx in Hd. by injection Hd.
Qed.

(** The maps [decodeMany] returns can be encoded and decode to
    themselves. *)
Lemma decodeMany_of_json (arr : object)
    (arrObjs : list (option (gmap string value))) :
  decodeMany_of arr = Return (Some arrObjs) →
  Forall (λ obj, ∀ m, obj = Some m → is_json (VMap m)) arrObjs.
Proof.
  unfold decodeMany_of.
  destruct (marshalable_object arr) eqn:Hm; [|done].
  destruct (decoded_object arr) as [| | | | | | |l| | |] eqn:Hd; try done.
  destruct (mapM as_nilable_map l) as [objs|] eqn:Hobjs; [|done].
  intros [= <-].
  assert (is_json (VSlice l)) as Hjson.
  { rewrite <- Hd. destruct arr as [v|name fields];
      [by apply is_json_decoded | done]. }
  apply is_json_VSlice in Hjson. apply mapM_Some in Hobjs. clear Hd.
  revert Hjson.
  induction Hobjs as [|x obj l objs Hx Hobjs IH]; intros Hjson;
    [constructor|].
  apply Forall_cons in Hjson as [Hxj Hjson].
  constructor; [|by apply IH].
  intros m ->. destruct x; try done. simpl in Hx. by injection Hx as ->.
Qed.

Lemma Many_loop_no_error (c : Collection) (ids nows : nat → string)
    (k : nat) (arrObjs : list (option (gmap string value)))
    (savedData : list (gmap string value)) (st st' : Storage) (e : error) :
  Forall (λ obj, ∀ m, obj = Some m → is_json (VMap m)) arrObjs →
  Many_loop c ids nows k arrObjs savedData st ≠ Fails e st'.
Proof.
  intros Hall. revert k savedData st.
  induction Hall as [|obj arrObjs Hobj Hall IH]; intros k savedData st;
    [done|].
  cbn [Many_loop]. destruct obj as [m|]; [|done].
  cbn [of_nilable_map].
  rewrite (Insert_One_fields c _ m) by (eauto; by apply Hobj).
  cbn zeta. apply IH.
Qed.

(** X23.  When [Insert.Many] returns an error, the store is the one it
    was called on: no part of the slice has been inserted.  A slice
    with an element that cannot be serialized, or that is neither a
    field map nor nil, is refused as a whole. *)
Theorem Insert_Many_error_keeps_store (i : Insert) (arr : object)
    (ids nows : nat → string) (st st' : Storage) (e : error) :
  Insert_Many i arr ids nows st = Fails e st' → st' = st.
Proof.
  unfold Insert_Many.
  destruct (Kind_of (Insert_obj i)); [congruence|].
  destruct (Kind_of arr) as [k|]; [|done].
  destruct (negb _); [congruence|].
  destruct (decodeMany_of arr) as [[arrObjs|]|e'|text] eqn:Hd;
    [|simpl; congruence..].
  intros HM. by apply Many_loop_no_error in HM;
    [|by apply (decodeMany_of_json arr)].
Qed.

Lemma Insert_Many_error_keeps_store_witness :
  Insert_Many (Collection_Insert users (Plain VNil))
    (Plain (VSlice [VMap (person_fields "Jane" 35); VInt 5]))
    sample_ids sample_nows (Some [VMap john])
  = Fails json_error (Some [VMap john])
  ∧ Some [VMap john] = Some [VMap john].
Proof.
  split; [vm_compute; reflexivity|].
  apply (Insert_Many_error_keeps_store
           (Collection_Insert users (Plain VNil))
           (Plain (VSlice [VMap (person_fields "Jane" 35); VInt 5]))
           sample_ids sample_nows (Some [VMap john]) (Some [VMap john])
           json_error).
  vm_compute; reflexivity.
Defined.

(** ** Insert.FromJsonFile *)

(** Decoding what [decodeMany] has returned gives it back. *)
Lemma decodeMany_of_again (arr : object)
    (arrObjs : list (option (gmap string value))) :
  decodeMany_of arr = Return (Some arrObjs) →
  decodeMany_of (Plain (VSlice (of_nilable_map <$> arrObjs)))
  = Return (Some arrObjs).
Proof.
  intros Hjson%decodeMany_of_json. unfold decodeMany_of.
  cbn [marshalable_object decoded_object].
  rewrite (proj2 (marshalable_VSlice _)).
  2:{ apply Forall_fmap. eapply Forall_impl; [exact Hjson|].
      intros [m|] Hm; [|done]. by apply (Hm m). }
  cbn [decoded].
  assert (mapM as_nilable_map (decoded <$> (of_nilable_map <$> arrObjs))
          = Some arrObjs) as ->; [|done].
  apply mapM_Some. rewrite <- list_fmap_compose.
  apply Forall2_fmap_l, Forall_Forall2_diag.
  eapply Forall_impl; [exact Hjson|].
  intros [m|] Hm; [|done]. simpl.
  destruct (Hm m eq_refl) as [_ Hd]. cbn [decoded] in Hd.
  injection Hd as Hd. by rewrite Hd.
Qed.

Lemma decodeMany_of_slice (l : list value) :
  decodeMany_of (Plain (VSlice l)) ≠ Return None ∧
  ∀ text, decodeMany_of (Plain (VSlice l)) ≠ Panic text.
Proof.
  unfold decodeMany_of. cbn [marshalable_object decoded_object decoded].
  destruct (marshalable (VSlice l)); [|done].
  by destruct (mapM as_nilable_map (decoded <$> l)).
Qed.

(** X24.  On a file that holds a JSON array, [Insert.FromJsonFile] does
    what [Insert(nil).Many] does on the array, and on a file that holds
    a JSON object what [Insert.One] does on the object, but for the
    result: where [Many] or [One] returns an error, [FromJsonFile]
    returns nil.  So a file with an array of objects adds one record
    for each object, in the order of the file. *)
Theorem FromJsonFile_as_Many_or_One (c : Collection)
    (ids nows : nat → string) (st : Storage) :
  (∀ l, Insert_FromJsonFile (Collection_Insert c (Plain VNil))
          (Text (VSlice l)) ids nows st
        = swallowed (Insert_Many (Collection_Insert c (Plain VNil))
                       (Plain (VSlice l)) ids nows st)) ∧
  (∀ m, Insert_FromJsonFile (Collection_Insert c (Plain VNil))
          (Text (VMap m)) ids nows st
        = swallowed (Insert_One (Collection_Insert c (Plain (VMap m)))
                       (ids 0) (nows 0) st)) ∧
  (∀ ms, Forall (λ m, marshalable (VMap m) = true) ms →
         Insert_FromJsonFile (Collection_Insert c (Plain VNil))
           (Text (VSlice (VMap <$> ms))) ids nows st
         = Returns tt (append st (VMap <$> records_of c ids nows 0 ms))).
Proof.
  assert (HMany : ∀ l,
    Insert_FromJsonFile (Collection_Insert c (Plain VNil))
      (Text (VSlice l)) ids nows st
    = swallowed (Insert_Many (Collection_Insert c (Plain VNil))
                   (Plain (VSlice l)) ids nows st)).
  { intros l. unfold Insert_FromJsonFile.
    cbn [Kind_of Collection_Insert Insert_obj Insert_collection].
    cbn [reflect.Kind_eqb].
    destruct (decodeMany_of (Plain (VSlice l)))
      as [[arrObjs|]|e|text] eqn:Hd.
    - unfold Insert_Many at 2.
      cbn [Kind_of Collection_Insert Insert_obj Insert_collection].
      cbn [reflect.Kind_eqb negb]. rewrite Hd. cbn [default from_option id].
      unfold Insert_Many.
      cbn [Kind_of Collection_Insert Insert_obj Insert_collection].
      cbn [reflect.Kind_eqb negb].
      rewrite (decodeMany_of_again _ _ Hd). cbn [default from_option id].
      by destruct (Many_loop c ids nows 0 arrObjs [] st).
    - by destruct (decodeMany_of_slice l) as [? _].
    - unfold Insert_Many.
      cbn [Kind_of Collection_Insert Insert_obj Insert_collection].
      cbn [reflect.Kind_eqb negb]. by rewrite Hd.
    - by destruct (decodeMany_of_slice l) as [_ H]; destruct (H text). }
  split; [exact HMany|]. split.
  - intros m. unfold Insert_FromJsonFile, Insert_One, Collection_decode.
    cbn [Kind_of Collection_Insert Insert_obj Insert_collection].
    cbn [reflect.Kind_eqb negb andb marshalable_object decoded_object].
    destruct (marshalable (VMap m)) eqn:Hm; [|done].
    cbn [decoded of_nilable_map].
    rewrite (decoded_VMap_marshalable m Hm), decoded_fmap_decoded. done.
  - intros ms Hms. by rewrite HMany, Insert_Many_records.
Qed.

(** X25.  A file whose JSON array has an element that is neither an
    object nor null is taken without an error and without a record:
    [FromJsonFile] returns nil and the store is the one it was called
    on, the objects of the array included. *)
Theorem FromJsonFile_array_dropped (c : Collection) (l : list value)
    (x : value) (ids nows : nat → string) (st : Storage) :
  x ∈ l → as_nilable_map (decoded x) = None →
  Insert_FromJsonFile (Collection_Insert c (Plain VNil)) (Text (VSlice l))
    ids nows st
  = Returns tt st.
Proof.
  intros Hx Hnone. unfold Insert_FromJsonFile.
  cbn [Kind_of Collection_Insert Insert_obj Insert_collection].
  cbn [reflect.Kind_eqb].
  assert (decodeMany_of (Plain (VSlice l)) = Fail json_error) as ->; [|done].
  unfold decodeMany_of. cbn [marshalable_object decoded_object decoded].
  destruct (marshalable (VSlice l)); [|done].
  destruct (mapM as_nilable_map (decoded <$> l)) as [objs|] eqn:Hobjs;
    [|done].
  assert (is_Some (mapM as_nilable_map (decoded <$> l))) as HS by eauto.
  apply mapM_is_Some in HS. rewrite Forall_fmap, Forall_forall in HS.
  specialize (HS x Hx). simpl in HS. rewrite Hnone in HS. by destruct HS.
Qed.

Lemma FromJsonFile_array_dropped_witness :
  Insert_FromJsonFile (Collection_Insert users (Plain VNil))
    (Text (VSlice [VMap (<["name" := VString "Jane"]> ∅); VFloat 5]))
    sample_ids sample_nows (Some [VMap john])
  = Returns tt (Some [VMap john]).
Proof.
  apply (FromJsonFile_array_dropped users
           [VMap (<["name" := VString "Jane"]> ∅); VFloat 5] (VFloat 5)).
  - right. left.
  - reflexivity.
Defined.

(** X26.  The errors [FromJsonFile] returns are these four: the one for
    a handle made with a value, the one of opening or reading the file,
    the one for bytes that are not JSON, and the one for a JSON text
    that is neither an array nor an object.  With each of them the
    store is the one it was called on. *)
Theorem FromJsonFile_errors (i : Insert) (file : JsonFile)
    (ids nows : nat → string) (st st' : Storage) (e : error) :
  Insert_FromJsonFile i file ids nows st = Fails e st' →
  st' = st ∧
  ((Kind_of (Insert_obj i) ≠ None ∧
    e = errors_New "FromFile() params must be nil to insert from file") ∨
   file = Unreadable e ∨
   (file = NotJSON ∧ e = errors_New "invalid json file") ∨
   (∃ obj k, file = Text obj ∧ Kind_of (Plain obj) = Some k ∧
             k ≠ reflect.Slice ∧ k ≠ reflect.Map ∧
             e = errors_New
               "file must contain either an array of [objects ::: slice] or [object ::: map]")).
Proof.
  unfold Insert_FromJsonFile.
  destruct (Kind_of (Insert_obj i)) as [k|].
  { intros [= <- <-]. split; [done|]. by left. }
  destruct file as [err| |obj].
  - intros [= <- <-]. split; [done|]. right. by left.
  - intros [= <- <-]. split; [done|]. right. right. by left.
  - destruct (Kind_of (Plain obj)) as [k|] eqn:Hk; [|done].
    destruct (reflect.Kind_eqb k reflect.Slice) eqn:Hs.
    { destruct (decodeMany_of (Plain obj)) as [objMap|e'|text]; [|done..].
      by destruct (Insert_Many _ _ _ _ _). }
    destruct (reflect.Kind_eqb k reflect.Map) eqn:Hm.
    { destruct (Collection_decode (Plain obj)) as [objMap|e'|text];
        [|done..].
      by destruct (Insert_One _ _ _ _). }
    intros [= <- <-]. split; [done|]. right. right. right.
    exists obj, k. split; [done|]. split; [done|].
    split; [by intros -> | split; [by intros -> | done]].
Qed.

Lemma FromJsonFile_errors_witness :
  Insert_FromJsonFile (Collection_Insert users (Plain VNil))
    (Text (VString "John")) sample_ids sample_nows (Some [VMap john])
  = Fails (errors_New
      "file must contain either an array of [objects ::: slice] or [object ::: map]")
      (Some [VMap john])
  ∧ Some [VMap john] = Some [VMap john].
Proof.
  split; [reflexivity|].
  refine (proj1 (FromJsonFile_errors (Collection_Insert users (Plain VNil))
                   (Text (VString "John")) sample_ids sample_nows
                   (Some [VMap john]) (Some [VMap john]) _ _)).
  reflexivity.
Defined.

(** ** Cache *)

(** X27.  [Cache.Set] has a value receiver: it appends to the slice of
    its own copy of the [Cache].  For the caller the call succeeds and
    the [Cache] holds what it held before: [Get] returns for every key,
    the key just set included, what it returned before the call. *)
Theorem Cache_Set_not_kept (key : string) (v : value) (ch : Cache.Cache) :
  Cache.len ch ≤ length (Cache.array ch) →
  ∃ ch', Cache.Set_ key v ch = Returns tt ch' ∧
         Cache.Fscache ch' = Cache.Fscache ch ∧
         ∀ key', Cache.Get key' ch' = Cache.Get key' ch.
Proof.
  intros Hlen. eexists. split; [reflexivity|].
  assert (Cache.Fscache
            {| Cache.array :=
                 if Cache.len ch <? length (Cache.array ch)
                 then <[Cache.len ch := <[key := v]> ∅]> (Cache.array ch)
                 else Cache.array ch;
               Cache.len := Cache.len ch |} = Cache.Fscache ch) as HF.
  { unfold Cache.Fscache. simpl.
    destruct (Cache.len ch <? length (Cache.array ch)); [|done].
    by rewrite take_insert_ge. }
  split; [exact HF|]. intros key'. unfold Cache.Get. by rewrite HF.
Qed.

Lemma Cache_Set_not_kept_witness :
  ∃ ch', Cache.Set_ "k" (VInt 1) {| Cache.array := []; Cache.len := 0 |}
         = Returns tt ch' ∧
         Cache.Get "k" ch' = Fail Cache.errKeyNotFound.
Proof.
  destruct (Cache_Set_not_kept "k" (VInt 1)
              {| Cache.array := []; Cache.len := 0 |})
    as (ch' & HSet & _ & HGet); [simpl; lia|].
  exists ch'. split; [exact HSet|]. by rewrite HGet.
Defined.

Lemma Cache_Del_loop_missing (key : string) (index : nat)
    (rest : list (gmap string value)) (ch : Cache.Cache) :
  Forall (λ cache, cache !! key = None) rest →
  Cache.Del_loop key index rest ch = Fails Cache.errKeyNotFound ch.
Proof.
  intros Hrest. revert index.
  induction Hrest as [|cache rest Hc Hrest IH]; intros index; simpl; [done|].
  by rewrite Hc.
Qed.

Lemma Cache_Del_loop_found (key : string) (index : nat)
    (cache : gmap string value) (mid post : list (gmap string value))
    (ch : Cache.Cache) :
  Forall (λ cache, cache !! key = None) mid → is_Some (cache !! key) →
  Cache.Del_loop key index (mid ++ cache :: post) ch
  = Returns tt
      {| Cache.array :=
           remove_in_place (Cache.array ch) (Cache.len ch)
             (index + length mid);
         Cache.len := Cache.len ch |}.
Proof.
  intros Hmid [d Hd]. revert index.
  induction Hmid as [|x mid Hx Hmid IH]; intros index; simpl.
  - by rewrite Hd, Nat.add_0_r.
  - rewrite Hx, IH. do 3 f_equal. lia.
Qed.

Lemma Cache_Get_loop_missing (key : string)
    (Fscache : list (gmap string value)) :
  Forall (λ cache, cache !! key = None) Fscache ↔
  Cache.Get_loop key Fscache = Fail Cache.errKeyNotFound.
Proof.
  induction Fscache as [|cache rest IH]; simpl.
  - split; [done | constructor].
  - rewrite Forall_cons, IH. destruct (cache !! key); [|tauto].
    split; [by intros [? _] | done].
Qed.

(** X28.  [Cache.Del] has a value receiver as well, but it moves the
    maps in the array that the caller shares.  When [Get] does not find
    the key it fails with the error and changes nothing.  Otherwise it
    succeeds, and the caller's [Cache] has as many maps as before: the
    first holder is gone, the maps after it have moved down one place,
    and the last map is there twice.  When the first holder is the last
    map, the [Cache] is unchanged and [Get] still finds the key. *)
Theorem Cache_Del_shifts (key : string) (ch : Cache.Cache) :
  Cache.len ch ≤ length (Cache.array ch) →
  (Cache.Get key ch = Fail Cache.errKeyNotFound →
   Cache.Del key ch = Fails Cache.errKeyNotFound ch) ∧
  (∀ cache pre post,
     Cache.Fscache ch = pre ++ cache :: post →
     Forall (λ cache, cache !! key = None) pre → is_Some (cache !! key) →
     ∃ ch', Cache.Del key ch = Returns tt ch' ∧
            Cache.Fscache ch'
            = pre ++ post ++ [default cache (last post)] ∧
            (post = [] → Cache.Fscache ch' = Cache.Fscache ch)).
Proof.
  intros Hlen. split.
  { intros HGet%Cache_Get_loop_missing. by apply Cache_Del_loop_missing. }
  intros cache pre post HF Hpre Hc. unfold Cache.Del. rewrite HF.
  rewrite (Cache_Del_loop_found key 0 cache pre post ch Hpre Hc).
  eexists. split; [reflexivity|]. unfold Cache.Fscache in *. simpl.
  assert (Cache.len ch = length pre + S (length post)) as Hl.
  { apply (f_equal length) in HF.
    rewrite length_take, length_app in HF. simpl in HF. lia. }
  assert (take (Cache.len ch)
            (remove_in_place (Cache.array ch) (Cache.len ch) (length pre))
          = pre ++ post ++ [default cache (last post)]) as Hres.
  { replace (Cache.len ch) with (S (Cache.len ch - 1)) at 1 by lia.
    rewrite (take_S_r _ _ (default cache (last post))).
    - rewrite take_remove_in_place by lia.
      replace (take (length pre) (Cache.array ch))
        with (take (length pre) (take (Cache.len ch) (Cache.array ch)))
        by (rewrite take_take; f_equal; lia).
      rewrite HF, take_app_length.
      rewrite (cons_middle cache pre post), app_assoc,
        drop_app_length' by (rewrite length_app; simpl; lia).
      by rewrite <- app_assoc.
    - rewrite remove_in_place_lookup_ge by lia.
      rewrite <- (lookup_take_lt _ (Cache.len ch)) by lia.
      rewrite HF, lookup_app_r by lia.
      replace (Cache.len ch - 1 - length pre) with (length post) by lia.
      rewrite last_lookup. clear.
      destruct post as [|y post]; [done|]. simpl.
      destruct (lookup_lt_is_Some_2 (y :: post) (length post)) as [z Hz];
        [simpl; lia|].
      by rewrite Hz. }
  split; [exact Hres|]. intros ->. by rewrite Hres.
Qed.

Lemma Cache_Del_shifts_witness :
  ∃ ch',
    Cache.Del "b"
      {| Cache.array := [ {[ "a" := VInt 1 ]}; {[ "b" := VInt 2 ]};
                          {[ "c" := VInt 3 ]} ];
         Cache.len := 3 |}
    = Returns tt ch' ∧
    Cache.Fscache ch'
    = [ {[ "a" := VInt 1 ]}; {[ "c" := VInt 3 ]}; {[ "c" := VInt 3 ]} ].
Proof.
  assert (3 ≤ 3) as Hlen by lia.
  destruct (proj2 (Cache_Del_shifts "b"
              {| Cache.array := [ {[ "a" := VInt 1 ]}; {[ "b" := VInt 2 ]};
                                  {[ "c" := VInt 3 ]} ];
                 Cache.len := 3 |} Hlen)
              {[ "b" := VInt 2 ]} [ {[ "a" := VInt 1 ]} ]
              [ {[ "c" := VInt 3 ]} ])
    as (ch' & HDel & HF & _).
  - reflexivity.
  - repeat constructor.
  - exists (VInt 2). vm_compute; reflexivity.
  - exists ch'. split; [exact HDel | exact HF].
Defined.

(** ** Insert.One, then Filter *)






(** ** Insert.Many on a slice with a nil element *)

Lemma Many_loop_nil_map (c : Collection) (ids nows : nat → string) (k : nat)
    (arrObjs : list (option (gmap string value)))
    (savedData : list (gmap string value)) (st : Storage) :
  Forall (λ obj, ∀ m, obj = Some m → is_json (VMap m)) arrObjs →
  None ∈ arrObjs →
  Many_loop c ids nows k arrObjs savedData st
  = Panics "assignment to entry in nil map".
Proof.
  intros Hall. revert k savedData st.
  induction Hall as [|obj arrObjs Hobj Hall IH]; intros k savedData st Hin.
  - by apply elem_of_nil in Hin.
  - cbn [Many_loop]. destruct obj as [m|]; [|done].
    cbn [of_nilable_map].
    rewrite (Insert_One_fields c _ m) by (eauto; by apply Hobj).
    cbn zeta. apply IH. by apply elem_of_cons in Hin as [|].
Qed.

(** X29.  A nil element in the slice, among elements that are field
    maps or nil and can be serialized, makes [Insert(nil).Many] panic:
    [decodeMany] turns it into a nil map, which [One] cannot assign to.
    [FromJsonFile] panics in the same way on a file whose array holds a
    [null]. *)
Theorem Insert_Many_nil_element (c : Collection) (l : list value)
    (x : value) (ids nows : nat → string) (st : Storage) :
  marshalable (VSlice l) = true →
  Forall (λ y, is_Some (as_nilable_map (decoded y))) l →
  x ∈ l → decoded x = VNil →
  Insert_Many (Collection_Insert c (Plain VNil)) (Plain (VSlice l))
    ids nows st
  = Panics "assignment to entry in nil map" ∧
  Insert_FromJsonFile (Collection_Insert c (Plain VNil)) (Text (VSlice l))
    ids nows st
  = Panics "assignment to entry in nil map".
Proof.
  intros Hm Hmaps Hx Hnil.
  assert (is_Some (mapM as_nilable_map (decoded <$> l))) as [arrObjs Hobjs].
  { apply mapM_is_Some. by rewrite Forall_fmap. }
  assert (decodeMany_of (Plain (VSlice l)) = Return (Some arrObjs)) as Hd.
  { unfold decodeMany_of. cbn [marshalable_object decoded_object decoded].
    by rewrite Hm, Hobjs. }
  assert (None ∈ arrObjs) as Hin.
  { apply mapM_Some in Hobjs. apply list_elem_of_lookup in Hx as [i Hi].
    assert ((decoded <$> l) !! i = Some VNil) as Hi'
      by (by rewrite list_lookup_fmap, Hi; simpl; rewrite Hnil).
    destruct (Forall2_lookup_l _ _ _ _ _ Hobjs Hi') as (obj & Hobj & Hy).
    simpl in Hy. injection Hy as <-.
    by apply list_elem_of_lookup_2 in Hobj. }
  assert (Insert_Many (Collection_Insert c (Plain VNil)) (Plain (VSlice l))
            ids nows st = Panics "assignment to entry in nil map") as HM.
  { unfold Insert_Many.
    cbn [Kind_of Collection_Insert Insert_obj Insert_collection].
    cbn [reflect.Kind_eqb negb]. rewrite Hd. cbn [default from_option id].
    apply Many_loop_nil_map; [|done]. by apply (decodeMany_of_json _ _ Hd). }
  split; [exact HM|].
  unfold Insert_FromJsonFile.
  cbn [Kind_of Collection_Insert Insert_obj Insert_collection].
  cbn [reflect.Kind_eqb]. rewrite Hd. cbn [default from_option id].
  unfold Insert_Many.
  cbn [Kind_of Collection_Insert Insert_obj Insert_collection].
  cbn [reflect.Kind_eqb negb].
  rewrite (decodeMany_of_again _ _ Hd). cbn [default from_option id].
  rewrite Many_loop_nil_map; [done | by apply (decodeMany_of_json _ _ Hd)
                             | done].
Qed.

Lemma Insert_Many_nil_element_witness :
  Insert_Many (Collection_Insert users (Plain VNil))
    (Plain (VSlice [VMap (person_fields "John" 35); VNil]))
    sample_ids sample_nows None
  = Panics "assignment to entry in nil map".
Proof.
  apply (Insert_Many_nil_element users
           [VMap (person_fields "John" 35); VNil] VNil).
  - vm_compute; reflexivity.
  - repeat constructor; vm_compute; eauto.
  - right. left.
  - reflexivity.
Defined.
